(** * ddu-source-tri_source: a model of [denops/@ddu-sources/tri_source.ts]

    Shallow embedding of the tri_source ddu source: the buffer adapter
    ([gatherBuffer]), the vim-mr adapter ([gatherMr]), the recursive walker
    ([walkFiles], [readStat]) and the aggregator ([Source.gather]).

    External collaborators (denops calls, the Deno filesystem API, the
    AbortSignal) are inputs of the model: the results the host returns are
    fields of an environment record, the filesystem is a record of the four
    Deno primitives the walker uses, and the AbortSignal is observed by the
    walker at each [next()] of [abortable(Deno.readDir(dir), signal)]. *)

From Stdlib Require Import String Ascii List Bool ZArith Lia Sorted.
From Stdlib Require Import Permutation.
Import ListNotations.
Set Warnings "-register-all".
Open Scope list_scope.
Open Scope string_scope.

(* ------------------------------------------------------------------ *)
(** ** JavaScript values and strings *)

(** Exceptions that reach the [catch] blocks of the source.
    [PermissionDenied] is [Deno.errors.PermissionDenied]; [DOMExc n] is a
    [DOMException] named [n] (timeouts of [deadline], the default reason of
    [AbortController.abort()]); [ErrorNamed n] is any other [Error] whose
    [name] is [n]; [NonError] is a thrown value that is not an [Error]. *)
Inductive exn :=
| PermissionDenied
| DOMExc (name : string)
| ErrorNamed (name : string)
| NonError.

(** [e instanceof Error] *)
Definition is_error (e : exn) : bool :=
  match e with NonError => false | _ => true end.

(** [e.name] for the values that are [Error]s. *)
Definition exn_name (e : exn) : string :=
  match e with
  | PermissionDenied => "PermissionDenied"
  | DOMExc n => n
  | ErrorNamed n => n
  | NonError => ""
  end.

(** Result of a call that may throw. *)
Inductive res (A : Type) := ROk (a : A) | RErr (e : exn).
Arguments ROk {A} a.
Arguments RErr {A} e.

(** [s.startsWith(pre)] *)
Fixpoint starts_with (pre s : string) : bool :=
  match pre, s with
  | EmptyString, _ => true
  | String c pre', String d s' => Ascii.eqb c d && starts_with pre' s'
  | String _ _, EmptyString => false
  end.

(** [s.includes(sub)]: [sub] occurs somewhere in [s]. *)
Fixpoint includes (s sub : string) : bool :=
  starts_with sub s ||
  match s with
  | EmptyString => false
  | String _ s' => includes s' sub
  end.

Fixpoint ends_with_slash (s : string) : bool :=
  match s with
  | EmptyString => false
  | String c EmptyString => Ascii.eqb c "/"
  | String _ s' => ends_with_slash s'
  end.

Fixpoint list_of_string (s : string) : list ascii :=
  match s with EmptyString => [] | String c s' => c :: list_of_string s' end.

Fixpoint string_of_list (l : list ascii) : string :=
  match l with [] => EmptyString | c :: l' => String c (string_of_list l') end.

Fixpoint drop_slashes (l : list ascii) : list ascii :=
  match l with
  | c :: l' => if Ascii.eqb c "/" then drop_slashes l' else l
  | [] => []
  end.

(** [normalizePath]: [p.replace(/\/+$/, "")], every trailing ['/'] removed. *)
Definition normalizePath (p : string) : string :=
  string_of_list (rev (drop_slashes (rev (list_of_string p)))).

(** [String(n).padStart(2, " ")] for the short strings the source pads. *)
Definition padStart2 (s : string) : string :=
  match String.length s with
  | 0 => "  " ++ s
  | 1 => " " ++ s
  | _ => s
  end.

(** Decimal rendering of a non-negative integer ([String(bufnr)]). *)
Fixpoint digits (fuel : nat) (n : Z) (acc : string) : string :=
  match fuel with
  | O => acc
  | S f =>
      let acc' := String (ascii_of_nat (48 + Z.to_nat (n mod 10))) acc in
      if (n <? 10)%Z then acc' else digits f (n / 10)%Z acc'
  end.

Definition string_of_Z (z : Z) : string :=
  if (z <? 0)%Z then "-" ++ digits (Pos.size_nat (Z.to_pos (- z))) (- z) ""
  else digits (S (Pos.size_nat (Z.to_pos z))) z "".

(** Path components of a normalized absolute path. *)
Fixpoint split_slash (s : string) (cur : string) : list string :=
  match s with
  | EmptyString => if String.eqb cur "" then [] else [cur]
  | String c s' =>
      if Ascii.eqb c "/" then
        ((if String.eqb cur "" then [] else [cur]) ++ split_slash s' "")%list
      else split_slash s' (cur ++ String c "")
  end.

Fixpoint join_slash (l : list string) : string :=
  match l with
  | [] => ""
  | [x] => x
  | x :: l' => x ++ "/" ++ join_slash l'
  end.

Fixpoint drop_common (a b : list string) : list string * list string :=
  match a, b with
  | x :: a', y :: b' => if String.eqb x y then drop_common a' b' else (a, b)
  | _, _ => (a, b)
  end.

(** [@std/path] [relative(from, to)] on normalized absolute paths: the
    common leading components are dropped, each remaining component of
    [from] becomes [".."]. *)
Definition relative (from to : string) : string :=
  let '(f, t) := drop_common (split_slash from "") (split_slash to "") in
  join_slash (map (fun _ => "..") f ++ t)%list.

(** [@std/path] [join(dir, name)] for a normalized directory and an entry
    name read from that directory (no separator in it). *)
Definition join (dir name : string) : string :=
  if ends_with_slash dir then dir ++ name else dir ++ "/" ++ name.

(** A JavaScript [Set<string>], by the list of its elements. *)
Definition mem (k : string) (s : list string) : bool :=
  existsb (String.eqb k) s.

(* ------------------------------------------------------------------ *)
(** ** Items *)

Record ActionData := mkAction { path : string; isDirectory : bool }.

Record ItemHighlight := mkHighlight {
  hl_name : string; hl_group : string; col : nat; width : nat }.

Record Item := mkItem {
  word : string;
  display : option string;
  highlights : option (list ItemHighlight);
  action : ActionData }.

Definition batch := list Item.

(** [makeItem] *)
Definition makeItem (word_ path_ tag : string) (showPrefix isDir : bool) : Item :=
  let prefix := "[" ++ tag ++ "] " in
  {| word := word_;
     display := if showPrefix then Some (prefix ++ word_) else None;
     highlights :=
       if showPrefix then
         Some [ {| hl_name := "ddu_tri_source_" ++ tag;
                   hl_group := "DduTriSource_" ++ tag;
                   col := 1;
                   width := String.length prefix |} ]
       else None;
     action := {| path := path_; isDirectory := isDir |} |}.

(** The key the aggregator deduplicates on. *)
Definition item_key (it : Item) : string := normalizePath (path (action it)).

(** Configuration ([Params]). *)
Record Params := mkParams {
  enableBuffer : bool;
  enableMr : bool;
  enableFileRec : bool;
  ignoredDirectories : list string;
  chunkSize : Z;
  expandSymbolicLink : bool;
  mrKind : string;
  bufferOrderby : string;
  dedup : bool;
  showSourcePrefix : bool }.

(** Diagnostics written with [console.error]. *)
Inductive diag :=
| DiagMrUnavailable          (* the fixed vim-mr message for a DOMException *)
| DiagMr (e : exn)           (* console.error("[ddu-source-tri_source]", e) *)
| DiagError (e : exn).       (* console.error(e) in Source.gather *)

(* ------------------------------------------------------------------ *)
(** ** Sub-source: Buffer ([gatherBuffer]) *)

Record BufInfo := mkBufInfo {
  bufnr : Z; changed : bool; lastused : Z; listed : bool; name : string }.

Record GetBufInfoReturn := mkGetBufInfo {
  currentDir : string; alternateBufNr : Z; buffers : list BufInfo }.

(** The comparator given to [.sort]. *)
Definition buf_cmp (orderby : string) (bufNr : Z) (a b : BufInfo) : Z :=
  if String.eqb orderby "desc" then
    if (bufnr a =? bufNr)%Z then 1%Z
    else if (bufnr b =? bufNr)%Z then (-1)%Z
    else (lastused b - lastused a)%Z
  else (lastused a - lastused b)%Z.

(** [Array.prototype.sort] is stable; for the consistent comparator above
    every stable sort gives the order of this insertion sort. *)
Fixpoint insert_by (cmp : BufInfo -> BufInfo -> Z) (x : BufInfo)
    (l : list BufInfo) : list BufInfo :=
  match l with
  | [] => [x]
  | y :: l' => if (cmp x y <? 0)%Z then x :: l else y :: insert_by cmp x l'
  end.

Definition sort_by (cmp : BufInfo -> BufInfo -> Z) (l : list BufInfo) :=
  fold_left (fun acc x => insert_by cmp x acc) l [].

(** [buffers.filter((b) => b.listed).sort(...)] *)
Definition sorted_buffers (orderby : string) (bufNr : Z) (info : GetBufInfoReturn) :=
  sort_by (buf_cmp orderby bufNr) (filter listed (buffers info)).

(** The item pushed for one buffer. *)
Definition buffer_item (showPrefix : bool) (bufNr : Z) (info : GetBufInfoReturn)
    (b : BufInfo) : Item :=
  let curMarker := if (bufNr =? bufnr b)%Z then "%" else "" in
  let altMarker := if (alternateBufNr info =? bufnr b)%Z then "#" else "" in
  let modMarker := if changed b then "+" else " " in
  let bufnrStr := padStart2 (string_of_Z (bufnr b)) in
  let bufMark := padStart2 (curMarker ++ altMarker) in
  let relPath := relative (currentDir info) (name b) in
  let displayName := if starts_with ".." relPath then name b else relPath in
  let word_ := bufnrStr ++ " " ++ bufMark ++ " " ++ modMarker ++ " " ++ displayName in
  makeItem word_ (name b) "buf" showPrefix false.

(** The [for (const buf of sorted)] loop; [buftype n] is the result of
    [getbufvar(n, "&buftype")] when it is a string. *)
Fixpoint buffer_loop (dedup_ showPrefix : bool) (bufNr : Z) (info : GetBufInfoReturn)
    (buftype : Z -> option string) (seen : list string) (bufs : list BufInfo)
    : list Item * list string :=
  match bufs with
  | [] => ([], seen)
  | b :: rest =>
      if String.eqb (name b) "" then
        buffer_loop dedup_ showPrefix bufNr info buftype seen rest
      else
        let bufType := match buftype (bufnr b) with Some s => s | None => "" end in
        if String.eqb bufType "terminal" then
          buffer_loop dedup_ showPrefix bufNr info buftype seen rest
        else
          let absPath := normalizePath (name b) in
          if dedup_ && mem absPath seen then
            buffer_loop dedup_ showPrefix bufNr info buftype seen rest
          else
            let seen' := if dedup_ then absPath :: seen else seen in
            let '(items, s) :=
              buffer_loop dedup_ showPrefix bufNr info buftype seen' rest in
            (buffer_item showPrefix bufNr info b :: items, s)
  end.

Definition gatherBuffer (p : Params) (bufNr : Z) (info : GetBufInfoReturn)
    (buftype : Z -> option string) (seen : list string) : list Item * list string :=
  buffer_loop (dedup p) (showSourcePrefix p) bufNr info buftype seen
    (sorted_buffers (bufferOrderby p) bufNr info).

(* ------------------------------------------------------------------ *)
(** ** Sub-source: MRU ([gatherMr]) *)

(** The value a denops dispatch resolves to. *)
Inductive jsval := JStr (s : string) | JArr (l : list jsval) | JOther.

(** How [deadline(denops.dispatch("mr", kind + ":list"), 1000)] settles. *)
Inductive mr_response :=
| MrResolved (v : jsval)
| MrRejected (e : exn)
| MrTimedOut.

Fixpoint all_strings (l : list jsval) : option (list string) :=
  match l with
  | [] => Some []
  | JStr s :: l' =>
      match all_strings l' with Some r => Some (s :: r) | None => None end
  | _ :: _ => None
  end.

(** [ensure(v, is.ArrayOf(is.String))], which throws an [AssertError]. *)
Definition ensure_strings (v : jsval) : res (list string) :=
  match v with
  | JArr l =>
      match all_strings l with
      | Some r => ROk r
      | None => RErr (ErrorNamed "AssertError")
      end
  | _ => RErr (ErrorNamed "AssertError")
  end.

(** The body of the [try]: [deadline] rejects with a [DOMException] named
    [TimeoutError] after 1000 ms. *)
Definition mr_call (r : mr_response) : res (list string) :=
  match r with
  | MrResolved v => ensure_strings v
  | MrRejected e => RErr e
  | MrTimedOut => RErr (DOMExc "TimeoutError")
  end.

(** The [catch] of [gatherMr]. *)
Definition mr_diag (e : exn) : diag :=
  match e with DOMExc _ => DiagMrUnavailable | _ => DiagMr e end.

Fixpoint mr_loop (dedup_ showPrefix : bool) (mrKind_ : string)
    (seen : list string) (l : list string) : list Item * list string :=
  match l with
  | [] => ([], seen)
  | p :: rest =>
      let norm := normalizePath p in
      if dedup_ && mem norm seen then mr_loop dedup_ showPrefix mrKind_ seen rest
      else
        let seen' := if dedup_ then norm :: seen else seen in
        let '(items, s) := mr_loop dedup_ showPrefix mrKind_ seen' rest in
        (makeItem p p mrKind_ showPrefix (mem mrKind_ ["mrr"; "mrd"]) :: items, s)
  end.

Definition gatherMr (p : Params) (seen : list string) (r : mr_response)
    : list Item * list string * list diag :=
  match mr_call r with
  | ROk l =>
      let '(items, s) := mr_loop (dedup p) (showSourcePrefix p) (mrKind p) seen l in
      (items, s, [])
  | RErr e => ([], seen, [mr_diag e])
  end.

(* ------------------------------------------------------------------ *)
(** ** Sub-source: file_rec ([walkFiles], [readStat]) *)

(** The file type behind a [Deno.FileInfo]. *)
Inductive ftype := KFile | KDir | KSymlink | KOther.

Record FileInfo := mkInfo { isFile : bool; fi_isDirectory : bool; isSymlink : bool }.

Definition info_of (k : ftype) : FileInfo :=
  {| isFile := match k with KFile => true | _ => false end;
     fi_isDirectory := match k with KDir => true | _ => false end;
     isSymlink := match k with KSymlink => true | _ => false end |}.

(** The filesystem primitives the walker calls.  [readDir d] lists the
    entry names [Deno.readDir(d)] yields and the error, if any, raised when
    the iterator is asked for the entry after them (an error opening [d]
    is [([], Some e)]).  [lstat] and [stat] are [None] when they throw. *)
Record FS := mkFS {
  readDir : string -> list string * option exn;
  lstat : string -> option ftype;
  stat : string -> option ftype;
  realPath : string -> res string }.

(** [readStat] *)
Definition readStat (fs : FS) (p : string) (expandSymbolicLink_ : bool)
    : option FileInfo :=
  match lstat fs p with
  | None => None
  | Some k =>
      let st := info_of k in
      if isSymlink st && expandSymbolicLink_ then
        match stat fs p with
        | None => None
        | Some k' =>
            let st' := info_of k' in
            Some {| isFile := isFile st'; fi_isDirectory := fi_isDirectory st';
                    isSymlink := true |}
        end
      else Some st
  end.

(** What the body of [for await (const entry of ...)] does with one entry. *)
Inductive entry_step :=
| StatFailed                 (* stat === null: continue *)
| PushFile (it : Item)       (* !stat.isDirectory: chunk.push *)
| SkipIgnored                (* ignoredDirectories.includes(entry.name) *)
| SkipLooped                 (* "Looped symlink" *)
| Recurse (p : string)       (* yield* inner(abspath) *)
| Raise (e : exn).           (* Deno.realPath threw *)

Definition walk_entry (fs : FS) (root : string) (ignored : list string)
    (expandSymbolicLink_ : bool) (dir nm : string) : entry_step :=
  let abspath := join dir nm in
  match readStat fs abspath expandSymbolicLink_ with
  | None => StatFailed
  | Some st =>
      if negb (fi_isDirectory st) then
        PushFile {| word := relative root abspath; display := None;
                    highlights := None;
                    action := {| path := abspath; isDirectory := false |} |}
      else if mem nm ignored then SkipIgnored
      else if isSymlink st && fi_isDirectory st then
        match realPath fs abspath with
        | RErr e => Raise e
        | ROk rp => if includes abspath rp then SkipLooped else Recurse abspath
        end
      else Recurse abspath
  end.

(** The AbortSignal: [Some (k, r)] when [abort(r)] has been called before
    the [k]-th [next()] of any [abortable] readDir iterator of the walk;
    from then on every [next()] rejects with [r]. *)
Definition signal := option (nat * exn).

Definition aborted (sg : signal) (t : nat) : option exn :=
  match sg with
  | Some (k, r) => if Nat.leb k t then Some r else None
  | None => None
  end.

(** How a generator returned: normally, by a throw, or (for the fuel bound
    of the model) not within the given recursion depth.  The [nat] is the
    number of [next()] calls made so far. *)
Inductive wend := WDone (t : nat) | WThrow (e : exn) (t : nat) | WNoFuel.

Section Walk.
Variables (fs : FS) (sg : signal) (root : string) (ignored : list string)
  (chunkSize_ : Z) (expandSymbolicLink_ : bool).

(** The [try] body of [inner]: the loop over the entries of [dir], with
    [rec] the recursive [inner] and [t] the index of the next [next()]. *)
Fixpoint walk_loop (rec : string -> nat -> list batch * wend) (dir : string)
    (rderr : option exn) (es : list string) (chunk : batch) (t : nat)
    : list batch * wend :=
  match aborted sg t with
  | Some r => ([], WThrow r (S t))
  | None =>
      match es with
      | [] =>
          match rderr with
          | Some e => ([], WThrow e (S t))
          | None =>
              (match chunk with [] => [] | _ :: _ => [chunk] end, WDone (S t))
          end
      | nm :: es' =>
          match walk_entry fs root ignored expandSymbolicLink_ dir nm with
          | StatFailed | SkipIgnored | SkipLooped =>
              walk_loop rec dir rderr es' chunk (S t)
          | PushFile it =>
              let chunk' := (chunk ++ [it])%list in
              if (chunkSize_ <=? Z.of_nat (length chunk'))%Z then
                let '(bs, w) := walk_loop rec dir rderr es' [] (S t) in
                (chunk' :: bs, w)
              else walk_loop rec dir rderr es' chunk' (S t)
          | Recurse p =>
              let '(bs, w) := rec p (S t) in
              match w with
              | WDone t' =>
                  let '(bs2, w2) := walk_loop rec dir rderr es' chunk t' in
                  ((bs ++ bs2)%list, w2)
              | _ => (bs, w)
              end
          | Raise e => ([], WThrow e (S t))
          end
      end
  end.

(** The [catch] of [inner]: [PermissionDenied] ends the generator. *)
Definition catch_pd (r : list batch * wend) : list batch * wend :=
  match r with
  | (bs, WThrow PermissionDenied t) => (bs, WDone t)
  | _ => r
  end.

Fixpoint inner (fuel : nat) (dir : string) (t : nat) : list batch * wend :=
  match fuel with
  | O => ([], WNoFuel)
  | S f =>
      let '(es, rderr) := readDir fs dir in
      catch_pd (walk_loop (inner f) dir rderr es [] t)
  end.

Definition walkFiles (fuel : nat) : list batch * wend := inner fuel root 0.

End Walk.

(* ------------------------------------------------------------------ *)
(** ** The aggregator ([Source.gather]) *)

(** The dedup filter applied to each walker chunk. *)
Fixpoint rec_filter (seen : list string) (chunk : batch) : batch * list string :=
  match chunk with
  | [] => ([], seen)
  | it :: rest =>
      let actionPath := path (action it) in
      if String.eqb actionPath "" then
        let '(r, s) := rec_filter seen rest in (it :: r, s)
      else
        let p := normalizePath actionPath in
        if mem p seen then rec_filter seen rest
        else let '(r, s) := rec_filter (p :: seen) rest in (it :: r, s)
  end.

(** The [showSourcePrefix] decoration of a walker item. *)
Definition rec_prefix (it : Item) : Item :=
  let prefix := "[rec] " in
  {| word := word it;
     display := Some (prefix ++ word it);
     highlights := Some [ {| hl_name := "ddu_tri_source_rec";
                             hl_group := "DduTriSource_rec";
                             col := 1; width := String.length prefix |} ];
     action := action it |}.

(** The state of the [for await] loop over the walker: the dedup set, the
    batches enqueued so far, [pendingItems] and [enqueueSize]. *)
Record WState := mkWState {
  ws_seen : list string; ws_out : list batch; ws_pending : batch; ws_size : Z }.

(** One iteration of the [for await] loop. *)
Definition feed (p : Params) (st : WState) (chunk : batch) : WState :=
  let '(filtered, seen') :=
    if dedup p then rec_filter (ws_seen st) chunk else (chunk, ws_seen st) in
  let filtered' := if showSourcePrefix p then map rec_prefix filtered else filtered in
  let pendingItems := (ws_pending st ++ filtered')%list in
  if (ws_size st <=? Z.of_nat (length pendingItems))%Z then
    mkWState seen' (ws_out st ++ [pendingItems])%list [] (10 * chunkSize p)
  else mkWState seen' (ws_out st) pendingItems (ws_size st).

Definition feed_all (p : Params) (st : WState) (chunks : list batch) : WState :=
  fold_left (feed p) chunks st.

(** [e instanceof Error && e.name.includes("AbortReason")] *)
Definition is_abort_reason (e : exn) : bool :=
  is_error e && includes (exn_name e) "AbortReason".

(** The [catch] of [start]: ignored abort, otherwise [console.error(e)]. *)
Definition report (e : exn) : list diag :=
  if is_abort_reason e then [] else [DiagError e].

(** What the host provides to one [gather] call. *)
Record Env := mkEnv {
  env_bufNr : Z;                          (* args.context.bufNr *)
  env_bufinfo : res GetBufInfoReturn;     (* ddu#source#tri_source#getbufinfo *)
  env_buftype : Z -> option string;       (* getbufvar(n, "&buftype") *)
  env_mr : mr_response;                   (* the vim-mr dispatch *)
  env_root : string;                      (* resolve(root, root) *)
  env_fs : FS;
  env_signal : signal;
  env_fuel : nat }.

(** The walker phase, from the [seen] set left by the earlier phases: the
    batches enqueued, the diagnostics, and whether the fuel ran out. *)
Definition walk_stage (p : Params) (env : Env) (seen : list string)
    : list batch * list diag * bool :=
  let '(chunks, w) :=
    walkFiles (env_fs env) (env_signal env) (env_root env) (ignoredDirectories p)
      (chunkSize p) (expandSymbolicLink p) (env_fuel env) in
  let st := feed_all p (mkWState seen [] [] (chunkSize p)) chunks in
  match w with
  | WDone _ =>
      ((ws_out st ++ match ws_pending st with [] => [] | _ :: _ => [ws_pending st] end)%list,
       [], false)
  | WThrow e _ => (ws_out st, report e, false)
  | WNoFuel => (ws_out st, [], true)
  end.

(** Which [controller.enqueue] call delivered a batch. *)
Inductive origin := OBuf | OMr | ORec.

(** The run: each delivered batch with the enqueue site it came from, the
    [console.error] output, and whether the walk exceeded the fuel bound. *)
Record Run := mkRun {
  traced : list (origin * batch); logs : list diag; exhausted : bool }.

Definition delivered (r : Run) : list batch := map snd (traced r).

(** [if (items.length > 0) controller.enqueue(items)] *)
Definition enqueue_nonempty (o : origin) (b : batch) : list (origin * batch) :=
  match b with [] => [] | _ :: _ => [(o, b)] end.

(** Steps 2 (MRU) and 3 (file_rec) of [start], after the buffer list. *)
Definition gather_rest (p : Params) (env : Env) (bufItems : list Item)
    (seen1 : list string) : Run :=
  let '(mrItems, seen2, logs2) :=
    if enableMr p then gatherMr p seen1 (env_mr env) else ([], seen1, []) in
  let '(walkOut, logs3, ex) :=
    if enableFileRec p then walk_stage p env seen2 else ([], [], false) in
  mkRun (enqueue_nonempty OBuf bufItems ++ enqueue_nonempty OMr mrItems
           ++ map (pair ORec) walkOut)%list
        (logs2 ++ logs3)%list ex.

(** [start(controller)]; [controller.close()] ends every path. *)
Definition gather (p : Params) (env : Env) : Run :=
  let buf :=
    if enableBuffer p then
      match env_bufinfo env with
      | ROk info => ROk (gatherBuffer p (env_bufNr env) info (env_buftype env) [])
      | RErr e => RErr e
      end
    else ROk ([], []) in
  match buf with
  | RErr e => mkRun [] (report e) false
  | ROk (bufItems, seen1) => gather_rest p env bufItems seen1
  end.

(* ------------------------------------------------------------------ *)
(** ** Observations on a run *)

(** A buffer the loop of [gatherBuffer] does not [continue] past before
    the dedup check: named and not a terminal. *)
Definition buf_keep (buftype : Z -> option string) (b : BufInfo) : bool :=
  negb (String.eqb (name b) "") &&
  negb (String.eqb (match buftype (bufnr b) with Some s => s | None => "" end)
          "terminal").

(** Keys produced by the buffer adapter in a run. *)
Definition buf_keys (p : Params) (env : Env) : list string :=
  if enableBuffer p then
    match env_bufinfo env with
    | ROk info =>
        map (fun b => normalizePath (name b))
          (filter (buf_keep (env_buftype env))
             (sorted_buffers (bufferOrderby p) (env_bufNr env) info))
    | RErr _ => []
    end
  else [].

(** Whether the buffer phase let the run continue. *)
Definition buffer_ok (p : Params) (env : Env) : bool :=
  negb (enableBuffer p) ||
  match env_bufinfo env with ROk _ => true | RErr _ => false end.

(** Keys produced by the MRU adapter in a run (it runs only when the
    buffer phase did not throw). *)
Definition mr_keys (p : Params) (env : Env) : list string :=
  if enableMr p && buffer_ok p env then
    match mr_call (env_mr env) with
    | ROk l => map normalizePath l
    | RErr _ => []
    end
  else [].

(** The origin of every delivered item, in delivery order. *)
Definition item_origins (tr : list (origin * batch)) : list origin :=
  flat_map (fun ob => repeat (fst ob) (length (snd ob))) tr.

(** Prefix of a list. *)
Definition prefix {A} (l1 l2 : list A) : Prop := exists l3, l2 = (l1 ++ l3)%list.

(** [fs] with the listing of directory [d] replaced. *)
Definition with_readDir (fs : FS) (d : string) (v : list string * option exn) : FS :=
  {| readDir := fun x => if String.eqb x d then v else readDir fs x;
     lstat := lstat fs; stat := stat fs; realPath := realPath fs |}.

(** Every item the walker phase has enqueued or holds in [pendingItems]. *)
Definition ws_all (st : WState) : batch := (concat (ws_out st) ++ ws_pending st)%list.

(** ** Concrete inputs *)

(** A configuration with only file_rec enabled. *)
Definition rec_params (cs : Z) (dedup_ showPrefix : bool) : Params :=
  mkParams false false true [".git"] cs false "mru" "desc" dedup_ showPrefix.

(** A root [/r] holding the regular files [names]; reading it fails with
    [err] after them. *)
Definition flat_fs (names : list string) (err : option exn) : FS :=
  {| readDir := fun d => if String.eqb d "/r" then (names, err)
                         else ([], Some (ErrorNamed "NotFound"));
     lstat := fun _ => Some KFile;
     stat := fun _ => Some KFile;
     realPath := fun p => ROk p |}.

Definition file_names (n : nat) : list string :=
  map (fun i => "f" ++ string_of_Z (Z.of_nat i)) (seq 0 n).

(** A host with no buffers, an empty vim-mr list and the walk rooted at [/r]. *)
Definition walk_env (fs : FS) (sg : signal) : Env :=
  mkEnv 1 (ROk (mkGetBufInfo "/r" 0 [])) (fun _ => None) (MrResolved (JArr []))
    "/r" fs sg 3.

(** [env] with the vim-mr dispatch settling as [r]. *)
Definition with_mr (env : Env) (r : mr_response) : Env :=
  mkEnv (env_bufNr env) (env_bufinfo env) (env_buftype env) r (env_root env)
    (env_fs env) (env_signal env) (env_fuel env).

(** A filesystem where [/r/data] is a symbolic link to the directory
    [/srv/data], which holds one file. *)
Definition link_fs : FS :=
  {| readDir := fun d =>
       if String.eqb d "/r" then (["data"], None)
       else if String.eqb d "/r/data" then (["x"], None)
       else ([], Some (ErrorNamed "NotFound"));
     lstat := fun p => if String.eqb p "/r/data" then Some KSymlink else Some KFile;
     stat := fun p => if String.eqb p "/r/data" then Some KDir else Some KFile;
     realPath := fun p => if String.eqb p "/r/data" then ROk "/srv/data" else ROk p |}.


Definition dup_env : Env :=
  mkEnv 1 (ROk (mkGetBufInfo "/x" 0 [mkBufInfo 1 false 10 true "/x/f.txt"]))
    (fun _ => None) (MrResolved (JArr [JStr "/x/f.txt"])) "/r" (flat_fs [] None) None 3.

(** [r1] is the walk [r0] with its normal return replaced by a throw of
    [e] at the same [next()] call, losing at most the final non-empty chunk
    that had not been yielded yet; any other outcome of [r0] is kept. *)
Definition ends_by (e : exn) (r0 r1 : list batch * wend) : Prop :=
  match snd r0 with
  | WDone t' =>
      snd r1 = WThrow e t' /\
      (fst r1 = fst r0 \/ exists c, c <> [] /\ fst r0 = (fst r1 ++ [c])%list)
  | _ => r1 = r0
  end.

(** The root [/r] lists [a] and the directory [d], which lists [b]. *)
Definition tree_fs (rootErr dErr : option exn) : FS :=
  {| readDir := fun x =>
       if String.eqb x "/r" then (["a"; "d"], rootErr)
       else if String.eqb x "/r/d" then (["b"], dErr)
       else ([], Some (ErrorNamed "NotFound"));
     lstat := fun x => if String.eqb x "/r/d" then Some KDir else Some KFile;
     stat := fun x => if String.eqb x "/r/d" then Some KDir else Some KFile;
     realPath := fun x => ROk x |}.

(** [env] with the abort signal [sg]. *)
Definition with_signal (env : Env) (sg : signal) : Env :=
  mkEnv (env_bufNr env) (env_bufinfo env) (env_buftype env) (env_mr env) (env_root env)
    (env_fs env) sg (env_fuel env).

(** The number of [next()] calls made when a generator ended. *)
Definition end_tick (w : wend) : option nat :=
  match w with WDone t | WThrow _ t => Some t | WNoFuel => None end.

(** [r1] is what a walk does when [abort(r)] happens before its [k]-th
    [next()], and [r0] what it does without abort: the same, when [r0]
    ended within its first [k] calls; otherwise a throw of [r] at the
    [k]-th call, after a prefix of [r0]'s batches. *)
Definition cancel_rel (k : nat) (r : exn) (r0 r1 : list batch * wend) : Prop :=
  match end_tick (snd r0) with
  | Some t' =>
      if Nat.leb t' k then r1 = r0
      else exists bs1, r1 = (bs1, WThrow r (S k)) /\ prefix bs1 (fst r0)
  | None => r1 = r0 \/ exists bs1, r1 = (bs1, WThrow r (S k)) /\ prefix bs1 (fst r0)
  end.

(** The loop shape shared by [gatherBuffer], [gatherMr] and the walker's
    filter when [dedup] is on: skip what [keep] rejects, skip a key already
    in [seen], otherwise record the key and emit the item. *)
Fixpoint dedup_scan {A} (keep : A -> bool) (key : A -> string) (mk : A -> Item)
    (seen : list string) (l : list A) : list Item * list string :=
  match l with
  | [] => ([], seen)
  | a :: l' =>
      if keep a then
        if mem (key a) seen then dedup_scan keep key mk seen l'
        else let '(r, s) := dedup_scan keep key mk (key a :: seen) l' in (mk a :: r, s)
      else dedup_scan keep key mk seen l'
  end.

(** The dedup invariant of the walker phase, on keys. *)
Definition dedup_inv (seen0 : list string) (st : WState) : Prop :=
  NoDup (map item_key (ws_all st)) /\
  (forall k, In k (map item_key (ws_all st)) -> In k (ws_seen st)) /\
  (forall x, In x seen0 -> In x (ws_seen st)) /\
  (forall k, In k (map item_key (ws_all st)) -> ~ In k seen0).

(** The emission thresholds and the bound on [pendingItems]. *)
Definition emitter_inv (p : Params) (st : WState) : Prop :=
  ws_size st = (match ws_out st with [] => chunkSize p | _ :: _ => 10 * chunkSize p end)%Z /\
  (forall i b, nth_error (ws_out st) i = Some b ->
     ((if Nat.eqb i 0 then chunkSize p else 10 * chunkSize p) <= Z.of_nat (length b))%Z) /\
  (Z.of_nat (length (ws_pending st)) < ws_size st)%Z.

(** ** Highlights and further inputs *)

(** [highlight default <group> <attrs>] defines [group]. *)
Definition highlight_cmd (group attrs : string) : string :=
  "highlight default " ++ group ++ " " ++ attrs.

(** The groups [Source.onInit] defines, with their attributes, in order. *)
Definition onInit_hl : list (string * string) :=
  [("DduTriSource_buf", "ctermfg=Green guifg=#98c379")] ++
  map (fun kind => ("DduTriSource_" ++ kind, "ctermfg=Yellow guifg=#e5c07b"))
    ["mru"; "mrw"; "mrr"; "mrd"] ++
  [("DduTriSource_rec", "ctermfg=Blue guifg=#61afef")].

(** The commands [Source.onInit] sends. *)
Definition onInit_cmds : list string :=
  map (fun ga => highlight_cmd (fst ga) (snd ga)) onInit_hl.

(** Whether [onInit] defines the highlight group [g]. *)
Definition hl_defined (g : string) : bool :=
  existsb (fun ga => String.eqb (fst ga) g) onInit_hl.

(** The tag [makeItem] or the walker loop puts on an item of each origin. *)
Definition tag_of (p : Params) (o : origin) : string :=
  match o with OBuf => "buf" | OMr => mrKind p | ORec => "rec" end.

(** [l1] is [l2] with some elements left out, the others in order. *)
Inductive subseq {A : Type} : list A -> list A -> Prop :=
| subseq_nil : subseq [] []
| subseq_keep x l1 l2 : subseq l1 l2 -> subseq (x :: l1) (x :: l2)
| subseq_skip x l1 l2 : subseq l1 l2 -> subseq l1 (x :: l2).

(** A root [/r] holding a dangling symbolic link [gone] and a symbolic
    link [ln] to a regular file. *)
Definition link2_fs : FS :=
  {| readDir := fun d => if String.eqb d "/r" then (["gone"; "ln"], None)
                         else ([], Some (ErrorNamed "NotFound"));
     lstat := fun _ => Some KSymlink;
     stat := fun p => if String.eqb p "/r/ln" then Some KFile else None;
     realPath := fun p => ROk p |}.


(** A batch the walker may yield: non-empty, at most [chunkSize] items. *)
Definition batch_ok (cs : Z) (b : batch) : Prop :=
  b <> [] /\ (Z.of_nat (length b) <= Z.max 1 cs)%Z.

(** Where a delivered item of origin [o] comes from: a buffer of the
    sorted [getbufinfo] list that the loop keeps, a path of the vim-mr
    reply, or an entry the walker pushes (decorated by the aggregator). *)
Definition item_source (p : Params) (env : Env) (o : origin) (it : Item) : Prop :=
  match o with
  | OBuf =>
      enableBuffer p = true /\
      exists info b, env_bufinfo env = ROk info /\
        In b (sorted_buffers (bufferOrderby p) (env_bufNr env) info) /\
        buf_keep (env_buftype env) b = true /\
        it = buffer_item (showSourcePrefix p) (env_bufNr env) info b
  | OMr =>
      enableMr p = true /\
      exists l x, mr_call (env_mr env) = ROk l /\ In x l /\
        it = makeItem x x (mrKind p) (showSourcePrefix p) (mem (mrKind p) ["mrr"; "mrd"])
  | ORec =>
      enableFileRec p = true /\
      exists it0 dir nm,
        walk_entry (env_fs env) (env_root env) (ignoredDirectories p)
          (expandSymbolicLink p) dir nm = PushFile it0 /\
        it = (if showSourcePrefix p then rec_prefix it0 else it0)
  end.

(* ================================================================== *)
(** * Proofs *)

(** ** Walker structure *)

Lemma walk_loop_items fs sg root ign cs ex (P : Item -> Prop) rec dir rderr :
  (forall nm it, walk_entry fs root ign ex dir nm = PushFile it -> P it) ->
  (forall p t, Forall (Forall P) (fst (rec p t))) ->
  forall es chunk t, Forall P chunk ->
  Forall (Forall P) (fst (walk_loop fs sg root ign cs ex rec dir rderr es chunk t)).
Proof.
  intros Hent Hrec es; induction es as [|nm es IH]; intros chunk t Hc; simpl.
  - destruct (aborted sg t); simpl; auto.
    destruct rderr; simpl; auto. destruct chunk; simpl; auto.
  - destruct (aborted sg t); simpl; auto.
    destruct (walk_entry fs root ign ex dir nm) eqn:E; auto.
    + assert (Hc' : Forall P (chunk ++ [it])%list)
        by (apply Forall_app; split; [auto | constructor; [eapply Hent; eauto | constructor]]).
      destruct (_ <=? _)%Z.
      * specialize (IH [] (S t) (Forall_nil _)).
        destruct (walk_loop _ _ _ _ _ _ _ _ _ _ [] (S t)) as [bs w]; simpl in *.
        constructor; auto.
      * apply IH; auto.
    + specialize (Hrec p (S t)).
      destruct (rec p (S t)) as [bs w]; simpl in *.
      destruct w; simpl; auto.
      specialize (IH chunk t0 Hc).
      destruct (walk_loop _ _ _ _ _ _ _ _ _ _ chunk t0) as [bs2 w2]; simpl in *.
      apply Forall_app; auto.
Qed.

Lemma catch_pd_fst r : fst (catch_pd r) = fst r.
Proof. destruct r as [bs [|[] |]]; reflexivity. Qed.

Lemma inner_items fs sg root ign cs ex (P : Item -> Prop) :
  (forall dir nm it, walk_entry fs root ign ex dir nm = PushFile it -> P it) ->
  forall fuel dir t, Forall (Forall P) (fst (inner fs sg root ign cs ex fuel dir t)).
Proof.
  intros Hent fuel; induction fuel as [|f IH]; intros dir t; simpl; auto.
  destruct (readDir fs dir) as [es rderr].
  rewrite catch_pd_fst. apply walk_loop_items; [eauto | intros; apply IH | constructor].
Qed.

Lemma join_nonempty dir nm : join dir nm <> "".
Proof.
  unfold join. destruct (ends_with_slash dir) eqn:E.
  - destruct dir; [discriminate | discriminate].
  - destruct dir; discriminate.
Qed.

Lemma walk_entry_push fs root ign ex dir nm it :
  walk_entry fs root ign ex dir nm = PushFile it ->
  action it = {| path := join dir nm; isDirectory := false |}.
Proof.
  unfold walk_entry.
  destruct (readStat fs (join dir nm) ex) as [st|]; [|discriminate].
  destruct (negb (fi_isDirectory st)); [intros H; inversion H; reflexivity|].
  destruct (mem nm ign); [discriminate|].
  destruct (isSymlink st && fi_isDirectory st);
    [destruct (realPath fs (join dir nm)) as [rp|e];
       [destruct (includes (join dir nm) rp)|]|]; discriminate.
Qed.

(** Every item the walker yields has a non-empty path. *)
Lemma walkFiles_paths fs sg root ign cs ex fuel :
  Forall (Forall (fun it => path (action it) <> ""))
    (fst (walkFiles fs sg root ign cs ex fuel)).
Proof.
  apply inner_items. intros dir nm it H.
  rewrite (walk_entry_push _ _ _ _ _ _ _ H). apply join_nonempty.
Qed.

(** ** Dedup scans *)

Lemma mem_In k s : mem k s = true <-> In k s.
Proof.
  unfold mem. rewrite existsb_exists. split.
  - intros [x [Hx Heq]]. apply String.eqb_eq in Heq. subst; auto.
  - intros H. exists k. split; auto. apply String.eqb_refl.
Qed.

Lemma buffer_loop_scan sp bufNr info bt seen bufs :
  buffer_loop true sp bufNr info bt seen bufs =
  dedup_scan (buf_keep bt) (fun b => normalizePath (name b))
    (buffer_item sp bufNr info) seen bufs.
Proof.
  revert seen; induction bufs as [|b bufs IH]; intros seen; simpl; auto.
  unfold buf_keep.
  destruct (String.eqb (name b) ""); simpl; auto.
  destruct (String.eqb _ "terminal"); simpl; auto.
  destruct (mem _ seen); simpl; auto.
  rewrite IH. reflexivity.
Qed.

Lemma mr_loop_scan sp kind seen l :
  mr_loop true sp kind seen l =
  dedup_scan (fun _ => true) normalizePath
    (fun p => makeItem p p kind sp (mem kind ["mrr"; "mrd"])) seen l.
Proof.
  revert seen; induction l as [|x l IH]; intros seen; simpl; auto.
  destruct (mem _ seen); simpl; auto. rewrite IH. reflexivity.
Qed.

Lemma rec_filter_scan seen chunk :
  Forall (fun it => path (action it) <> "") chunk ->
  rec_filter seen chunk = dedup_scan (fun _ => true) item_key (fun it => it) seen chunk.
Proof.
  intros H; revert seen; induction H as [|it chunk Hit H IH]; intros seen; simpl; auto.
  destruct (String.eqb (path (action it)) "") eqn:E.
  - apply String.eqb_eq in E. contradiction.
  - unfold item_key. destruct (mem _ seen); auto. rewrite IH. reflexivity.
Qed.

Section Scan.
Variables (A : Type) (keep : A -> bool) (key : A -> string) (mk : A -> Item).
Hypothesis key_mk : forall a, item_key (mk a) = key a.

Lemma dedup_scan_spec : forall l seen,
  let r := dedup_scan keep key mk seen l in
  NoDup (map item_key (fst r)) /\
  (forall it, In it (fst r) -> ~ In (item_key it) seen) /\
  (forall x, In x (snd r) <-> In x seen \/ In x (map item_key (fst r))) /\
  (forall x, In x (snd r) <-> In x seen \/ In x (map key (filter keep l))).
Proof.
  induction l as [|a l IH]; intros seen; simpl.
  - repeat split; auto using NoDup_nil; try tauto.
  - destruct (keep a) eqn:Ek.
    + destruct (mem (key a) seen) eqn:Em.
      * apply mem_In in Em.
        destruct (IH seen) as [H1 [H2 [H3 H4]]].
        repeat split; auto; try (intros Hx; apply H3 in Hx; tauto);
          try (intros Hx; apply H3; tauto).
        -- intros Hx. apply H4 in Hx. simpl. tauto.
        -- intros Hx. apply H4. simpl in Hx. destruct Hx as [Hx|[Hx|Hx]]; subst; tauto.
      * assert (Hn : ~ In (key a) seen)
          by (intros Hin; apply mem_In in Hin; congruence).
        destruct (IH (key a :: seen)) as [H1 [H2 [H3 H4]]].
        destruct (dedup_scan keep key mk (key a :: seen) l) as [r s] eqn:Er.
        simpl in *. rewrite key_mk. repeat split.
        -- constructor; auto. intros Hin. apply in_map_iff in Hin.
           destruct Hin as [it [Hk Hit]]. apply (H2 it Hit). rewrite Hk. left; auto.
        -- intros it [<-|Hit]; [rewrite key_mk; auto|].
           intros Hs. apply (H2 it Hit). right; auto.
        -- intros Hx. apply H3 in Hx. destruct Hx as [[Hx|Hx]|Hx]; subst; tauto.
        -- intros Hx. apply H3. destruct Hx as [Hx|[Hx|Hx]]; subst; tauto.
        -- intros Hx. apply H4 in Hx. destruct Hx as [[Hx|Hx]|Hx]; subst; tauto.
        -- intros Hx. apply H4. destruct Hx as [Hx|[Hx|Hx]]; subst; tauto.
    + apply IH.
Qed.

End Scan.

(** ** The walker phase of the aggregator *)

Lemma feed_items p st chunk :
  exists f s,
    (if dedup p then rec_filter (ws_seen st) chunk else (chunk, ws_seen st)) = (f, s) /\
    ws_seen (feed p st chunk) = s /\
    ws_all (feed p st chunk) =
      (ws_all st ++ (if showSourcePrefix p then map rec_prefix f else f))%list.
Proof.
  unfold feed.
  destruct (if dedup p then rec_filter (ws_seen st) chunk else (chunk, ws_seen st))
    as [f s] eqn:E.
  exists f, s. split; [reflexivity|].
  destruct (_ <=? _)%Z; simpl; split; auto; unfold ws_all; simpl.
  - rewrite concat_app. simpl. rewrite !app_nil_r, app_assoc. reflexivity.
  - rewrite app_assoc. reflexivity.
Qed.

Lemma rec_prefix_keys (show : bool) (f : batch) :
  map item_key (if show then map rec_prefix f else f) = map item_key f.
Proof. destruct show; [rewrite map_map; reflexivity | reflexivity]. Qed.


Lemma feed_dedup_inv p seen0 st chunk :
  dedup p = true ->
  Forall (fun it => path (action it) <> "") chunk ->
  dedup_inv seen0 st -> dedup_inv seen0 (feed p st chunk).
Proof.
  intros Hd Hne [I1 [I2 [I3 I4]]].
  destruct (feed_items p st chunk) as [f [s [Hf [Hs Ha]]]].
  rewrite Hd, rec_filter_scan in Hf by exact Hne.
  pose proof (dedup_scan_spec Item (fun _ => true) item_key (fun it => it)
                (fun _ => eq_refl) chunk (ws_seen st)) as Hspec.
  rewrite Hf in Hspec. simpl in Hspec. destruct Hspec as [S1 [S2 [S3 _]]].
  assert (S2' : forall k, In k (map item_key f) -> ~ In k (ws_seen st)).
  { intros k Hk. apply in_map_iff in Hk. destruct Hk as [it [<- Hit]]. auto. }
  unfold dedup_inv. rewrite Hs, Ha, map_app, rec_prefix_keys.
  repeat split.
  - apply NoDup_app; auto. intros k Hk1 Hk2. apply (S2' k Hk2). auto.
  - intros k Hk. apply in_app_or in Hk. apply S3. destruct Hk; auto.
  - intros x Hx. apply S3. auto.
  - intros k Hk. apply in_app_or in Hk. destruct Hk as [Hk|Hk]; auto.
    intros H0. apply (S2' k Hk). auto.
Qed.

Lemma feed_all_dedup_inv p seen0 : dedup p = true ->
  forall chunks st,
  Forall (Forall (fun it => path (action it) <> "")) chunks ->
  dedup_inv seen0 st -> dedup_inv seen0 (feed_all p st chunks).
Proof.
  intros Hd chunks; induction chunks as [|c cs IH]; intros st Hne Hi; simpl; auto.
  inversion Hne; subst. apply IH; auto. apply feed_dedup_inv; auto.
Qed.

Lemma dedup_inv_init seen0 cs : dedup_inv seen0 (mkWState seen0 [] [] cs).
Proof.
  unfold dedup_inv, ws_all; simpl. repeat split; auto using NoDup_nil; contradiction.
Qed.

Lemma walk_stage_dedup p env seen : dedup p = true ->
  let W := fst (fst (walk_stage p env seen)) in
  NoDup (map item_key (concat W)) /\
  (forall k, In k (map item_key (concat W)) -> ~ In k seen).
Proof.
  intros Hd. unfold walk_stage.
  pose proof (walkFiles_paths (env_fs env) (env_signal env) (env_root env)
                (ignoredDirectories p) (chunkSize p) (expandSymbolicLink p)
                (env_fuel env)) as Hne.
  destruct (walkFiles _ _ _ _ _ _ _) as [chunks w]. simpl in Hne.
  pose proof (feed_all_dedup_inv p seen Hd chunks _ Hne (dedup_inv_init seen (chunkSize p)))
    as [I1 [_ [_ I4]]].
  set (st := feed_all p _ chunks) in *.
  unfold ws_all in I1, I4. rewrite map_app in I1, I4.
  assert (Hout : NoDup (map item_key (concat (ws_out st))) /\
                 (forall k, In k (map item_key (concat (ws_out st))) -> ~ In k seen)).
  { split; [eapply NoDup_app_remove_r; eauto | intros k Hk; apply I4, in_or_app; auto]. }
  destruct w; simpl; auto.
  rewrite concat_app, map_app.
  destruct (ws_pending st) eqn:Ep; simpl; rewrite ?app_nil_r; auto.
Qed.

Lemma filter_all_true {A} (l : list A) : filter (fun _ => true) l = l.
Proof. induction l; simpl; congruence. Qed.

Lemma enqueue_concat o b : concat (map snd (enqueue_nonempty o b)) = b.
Proof. destruct b; simpl; rewrite ?app_nil_r; reflexivity. Qed.

Lemma in_enqueue o b o' b' : In (o', b') (enqueue_nonempty o b) -> o' = o /\ b' = b.
Proof. destruct b; simpl; [contradiction|]. intros [H|[]]. inversion H; auto. Qed.

Lemma in_enqueue_nonempty o b o' b' :
  In (o', b') (enqueue_nonempty o b) -> b' <> [].
Proof. destruct b; simpl; [contradiction|]. intros [H|[]]. inversion H; discriminate. Qed.

Lemma in_keys it (l : batch) : In it l -> In (item_key it) (map item_key l).
Proof. apply in_map. Qed.

(** Keys the MRU adapter produces when it runs. *)
Lemma gather_rest_dedup p env B s1 :
  dedup p = true ->
  NoDup (map item_key B) ->
  (forall x, In x s1 <-> In x (map item_key B)) ->
  let KM := if enableMr p then
              match mr_call (env_mr env) with
              | ROk l => map normalizePath l | RErr _ => [] end
            else [] in
  let r := gather_rest p env B s1 in
  NoDup (map item_key (concat (delivered r))) /\
  (forall o b it, In (o, b) (traced r) -> In it b -> o <> OBuf ->
     ~ In (item_key it) s1) /\
  (forall b it, In (ORec, b) (traced r) -> In it b -> ~ In (item_key it) KM) /\
  (forall k, In k (map item_key B) ->
     exists b it, In (OBuf, b) (traced r) /\ In it b /\ item_key it = k) /\
  (forall k, In k KM -> ~ In k s1 ->
     exists b it, In (OMr, b) (traced r) /\ In it b /\ item_key it = k).
Proof.
  intros Hd HB Hs1 KM. unfold gather_rest.
  destruct (if enableMr p then gatherMr p s1 (env_mr env) else ([], s1, []))
    as [[M s2] logs2] eqn:EM.
  assert (G : NoDup (map item_key M) /\
              (forall it, In it M -> ~ In (item_key it) s1) /\
              (forall x, In x s2 <-> In x s1 \/ In x (map item_key M)) /\
              (forall x, In x s2 <-> In x s1 \/ In x KM)).
  { unfold KM. destruct (enableMr p).
    - unfold gatherMr in EM. destruct (mr_call (env_mr env)) as [l|e].
      + rewrite Hd, mr_loop_scan in EM.
        pose proof (dedup_scan_spec string (fun _ => true) normalizePath
          (fun x => makeItem x x (mrKind p) (showSourcePrefix p) (mem (mrKind p) ["mrr"; "mrd"]))
          (fun _ => eq_refl) l s1) as Hspec.
        destruct (dedup_scan _ _ _ s1 l) as [M' s2'].
        inversion EM; subst. simpl in Hspec. rewrite filter_all_true in Hspec.
        exact Hspec.
      + inversion EM; subst. simpl. repeat split; auto using NoDup_nil; tauto.
    - inversion EM; subst. simpl. repeat split; auto using NoDup_nil; tauto. }
  destruct G as [G1 [G2 [G3 G4]]].
  destruct (if enableFileRec p then walk_stage p env s2 else ([], [], false))
    as [[W logs3] ex] eqn:EW.
  assert (H : NoDup (map item_key (concat W)) /\
              (forall k, In k (map item_key (concat W)) -> ~ In k s2)).
  { destruct (enableFileRec p).
    - pose proof (walk_stage_dedup p env s2 Hd) as HW. rewrite EW in HW. exact HW.
    - inversion EW; subst. simpl. split; auto using NoDup_nil. }
  destruct H as [H1 H2].
  unfold delivered; simpl.
  rewrite !map_app, !concat_app, !enqueue_concat, map_map. simpl. rewrite map_id.
  repeat split.
  - rewrite !map_app. apply NoDup_app; [exact HB| apply NoDup_app; auto |].
    + intros k Hk1 Hk2. apply (H2 k Hk2). apply G3. auto.
    + intros k Hk1 Hk2. apply in_app_or in Hk2. apply Hs1 in Hk1.
      destruct Hk2 as [Hk2|Hk2].
      * apply in_map_iff in Hk2. destruct Hk2 as [it [<- Hit]]. apply (G2 it Hit Hk1).
      * apply (H2 k Hk2). apply G3. auto.
  - intros o b it Hin Hit Ho Hk.
    apply in_app_or in Hin. destruct Hin as [Hin|Hin].
    { apply in_enqueue in Hin. destruct Hin; congruence. }
    apply in_app_or in Hin. destruct Hin as [Hin|Hin].
    { apply in_enqueue in Hin. destruct Hin as [_ ->]. exact (G2 it Hit Hk). }
    apply in_map_iff in Hin. destruct Hin as [b' [Heq Hb']]. inversion Heq; subst.
    apply (H2 (item_key it)); [|apply G3; auto].
    apply in_keys. apply in_concat. eauto.
  - intros b it Hin Hit Hk.
    apply in_app_or in Hin. destruct Hin as [Hin|Hin].
    { apply in_enqueue in Hin. destruct Hin; congruence. }
    apply in_app_or in Hin. destruct Hin as [Hin|Hin].
    { apply in_enqueue in Hin. destruct Hin; congruence. }
    apply in_map_iff in Hin. destruct Hin as [b' [Heq Hb']]. inversion Heq; subst.
    apply (H2 (item_key it)); [|apply G4; auto].
    apply in_keys. apply in_concat. eauto.
  - intros k Hk. apply in_map_iff in Hk. destruct Hk as [it [Hkey Hit]].
    exists B, it. repeat split; auto.
    apply in_or_app. left. destruct B; [contradiction| left; reflexivity].
  - intros k Hk Hn. assert (Hk2 : In k s2) by (apply G4; auto).
    apply G3 in Hk2. destruct Hk2 as [Hk2|Hk2]; [contradiction|].
    apply in_map_iff in Hk2. destruct Hk2 as [it [Hkey Hit]].
    exists M, it. repeat split; auto.
    apply in_or_app. right. apply in_or_app. left.
    destruct M; [contradiction| left; reflexivity].
Qed.

(** ** C1: dedup uniqueness and priority *)

(** C1: with [dedup] on, no dedup key ([normalizePath] of the action path)
    occurs in two delivered items; an item with a key the buffer adapter
    produced was delivered by the buffer batch, one with a key the MRU
    adapter produced by the buffer or the MRU batch; and every key the
    buffer adapter produces is delivered by the buffer batch, every key the
    MRU adapter produces and the buffer adapter does not by the MRU batch. *)
Theorem dedup_unique_priority p env :
  dedup p = true ->
  let r := gather p env in
  NoDup (map item_key (concat (delivered r))) /\
  (forall o b it, In (o, b) (traced r) -> In it b ->
     (In (item_key it) (buf_keys p env) -> o = OBuf) /\
     (In (item_key it) (mr_keys p env) -> o = OBuf \/ o = OMr)) /\
  (forall k, In k (buf_keys p env) ->
     exists b it, In (OBuf, b) (traced r) /\ In it b /\ item_key it = k) /\
  (forall k, In k (mr_keys p env) -> ~ In k (buf_keys p env) ->
     exists b it, In (OMr, b) (traced r) /\ In it b /\ item_key it = k).
Proof.
  intros Hd r. unfold r, gather, buf_keys, mr_keys, buffer_ok.
  destruct (enableBuffer p) eqn:EB.
  - destruct (env_bufinfo env) as [info|e] eqn:EI.
    + unfold gatherBuffer. rewrite Hd, buffer_loop_scan.
      pose proof (dedup_scan_spec BufInfo (buf_keep (env_buftype env))
        (fun b => normalizePath (name b))
        (buffer_item (showSourcePrefix p) (env_bufNr env) info)
        (fun _ => eq_refl)
        (sorted_buffers (bufferOrderby p) (env_bufNr env) info) []) as Hspec.
      destruct (dedup_scan _ _ _ [] _) as [B s1]. simpl in Hspec |- *.
      destruct Hspec as [S1 [_ [S3 S4]]].
      assert (Hs1 : forall x, In x s1 <-> In x (map item_key B))
        by (intros x; rewrite S3; tauto).
      assert (S4' : forall x, In x s1 <-> In x (map (fun b => normalizePath (name b))
                       (filter (buf_keep (env_buftype env))
                          (sorted_buffers (bufferOrderby p) (env_bufNr env) info))))
        by (intros x; rewrite S4; tauto).
      clear S3 S4.
      pose proof (gather_rest_dedup p env B s1 Hd S1 Hs1) as [R1 [R2 [R3 [R4 R5]]]].
      simpl in R3, R5. rewrite andb_true_r.
      split; [exact R1|]. split; [|split].
      * intros o b it Hin Hit. split; intros Hk.
        -- destruct o; auto; exfalso;
             (apply (R2 _ b it Hin Hit); [discriminate | apply S4'; auto]).
        -- destruct o; auto. exfalso. eapply R3; eauto.
      * intros k Hk. apply R4. apply Hs1, S4'. auto.
      * intros k Hk Hn. apply R5; auto. intros Hk1. apply Hn, S4'. auto.
    + simpl. rewrite andb_false_r. simpl.
      repeat split; auto using NoDup_nil; try contradiction.
  - assert (Hs1 : forall x, In x [] <-> In x (map item_key [])) by (simpl; tauto).
    pose proof (gather_rest_dedup p env [] [] Hd (NoDup_nil _) Hs1) as [R1 [R2 [R3 [R4 R5]]]].
    simpl. simpl in R3, R5. rewrite andb_true_r.
    split; [exact R1|]. split; [|split].
    + intros o b it Hin Hit. split; intros Hk; [contradiction|].
      destruct o; auto. exfalso. eapply R3; eauto.
    + intros k [].
    + intros k Hk _. apply R5; auto.
Qed.

Lemma dedup_unique_priority_witness :
  NoDup (map item_key (concat (delivered
    (gather (mkParams true true true [".git"] 1 false "mru" "desc" true true) dup_env)))) /\
  map (fun it => path (action it)) (concat (delivered
    (gather (mkParams true true true [".git"] 1 false "mru" "desc" true true) dup_env)))
  = ["/x/f.txt"].
Proof.
  split; [|vm_compute; reflexivity].
  destruct (dedup_unique_priority
              (mkParams true true true [".git"] 1 false "mru" "desc" true true) dup_env eq_refl)
    as [H _].
  exact H.
Defined.

(** ** C2: adapter order *)

Lemma gather_rest_shape p env B s1 :
  exists M W s2, traced (gather_rest p env B s1) =
    (enqueue_nonempty OBuf B ++ enqueue_nonempty OMr M ++ map (pair ORec) W)%list /\
    (W = [] \/ W = fst (fst (walk_stage p env s2))).
Proof.
  unfold gather_rest.
  destruct (if enableMr p then gatherMr p s1 (env_mr env) else ([], s1, []))
    as [[M s2] logs2].
  destruct (enableFileRec p).
  - destruct (walk_stage p env s2) as [[W logs3] ex] eqn:E.
    exists M, W, s2. split; [reflexivity|]. right. rewrite E. reflexivity.
  - exists M, [], s2. split; [reflexivity|]. left; reflexivity.
Qed.

Lemma gather_shape p env :
  traced (gather p env) = [] \/
  exists B M W s2, traced (gather p env) =
    (enqueue_nonempty OBuf B ++ enqueue_nonempty OMr M ++ map (pair ORec) W)%list /\
    (W = [] \/ W = fst (fst (walk_stage p env s2))).
Proof.
  unfold gather.
  destruct (if enableBuffer p then _ else ROk ([], [])) as [[B s1]|e].
  - right. destruct (gather_rest_shape p env B s1) as [M [W [s2 H]]]. eauto 6.
  - left. reflexivity.
Qed.

Lemma enqueue_origins o b :
  (exists a, map fst (enqueue_nonempty o b) = repeat o a /\ a <= 1) /\
  item_origins (enqueue_nonempty o b) = repeat o (length b).
Proof.
  destruct b; simpl.
  - split; [exists 0; auto|reflexivity].
  - split; [exists 1; auto|]. unfold item_origins. simpl. rewrite app_nil_r. reflexivity.
Qed.

Lemma item_origins_app l1 l2 :
  item_origins (l1 ++ l2) = (item_origins l1 ++ item_origins l2)%list.
Proof. unfold item_origins. apply flat_map_app. Qed.

Lemma rec_origins (W : list batch) :
  map fst (map (pair ORec) W) = repeat ORec (length W) /\
  item_origins (map (pair ORec) W) = repeat ORec (length (concat W)).
Proof.
  induction W as [|b W [IH1 IH2]]; simpl; auto.
  split; [f_equal; auto|]. unfold item_origins in *. simpl.
  rewrite IH2, length_app, repeat_app. reflexivity.
Qed.

(** C2: the batches of one run come from at most one buffer enqueue, then
    at most one MRU enqueue, then the walker's enqueues; hence in delivery
    order every buffer item precedes every MRU item, which precedes every
    walker item. *)
Theorem priority_order p env :
  let tr := traced (gather p env) in
  (exists a b c, map fst tr = (repeat OBuf a ++ repeat OMr b ++ repeat ORec c)%list
                 /\ a <= 1 /\ b <= 1) /\
  (exists n m k, item_origins tr = (repeat OBuf n ++ repeat OMr m ++ repeat ORec k)%list).
Proof.
  intros tr. unfold tr.
  destruct (gather_shape p env) as [H|[B [M [W [s2 [H _]]]]]]; rewrite H.
  - split; [exists 0, 0, 0 | exists 0, 0, 0]; auto.
  - destruct (enqueue_origins OBuf B) as [[a [Ha1 Ha2]] Hb].
    destruct (enqueue_origins OMr M) as [[b [Hb1 Hb2]] Hm].
    destruct (rec_origins W) as [Hw1 Hw2].
    split.
    + exists a, b, (length W). rewrite !map_app, Ha1, Hb1, Hw1. auto.
    + exists (length B), (length M), (length (concat W)).
      rewrite !item_origins_app, Hb, Hm, Hw2. reflexivity.
Qed.

(** ** The chunk emitter *)


Lemma feed_emitter_inv p st chunk :
  (0 < chunkSize p)%Z -> emitter_inv p st -> emitter_inv p (feed p st chunk).
Proof.
  intros Hc [E1 [E2 E3]]. unfold feed.
  destruct (if dedup p then rec_filter (ws_seen st) chunk else (chunk, ws_seen st))
    as [f s].
  destruct (ws_size st <=? Z.of_nat (length (ws_pending st ++ _)))%Z eqn:Hle.
  - apply Z.leb_le in Hle. unfold emitter_inv; cbn -[Z.mul]. repeat split.
    + destruct (ws_out st); reflexivity.
    + intros i b Hi. destruct (Nat.lt_ge_cases i (length (ws_out st))) as [Hlt|Hge].
      * rewrite nth_error_app1 in Hi by exact Hlt. apply E2 in Hi. exact Hi.
      * rewrite nth_error_app2 in Hi by exact Hge.
        destruct (i - length (ws_out st)) eqn:Hd; [|destruct n; discriminate].
        simpl in Hi. inversion Hi; subst b.
        assert (i = length (ws_out st)) by lia. subst i.
        rewrite E1 in Hle. destruct (ws_out st); simpl in *; lia.
    + cbn -[Z.mul]. lia.
  - apply Z.leb_gt in Hle. unfold emitter_inv; cbn -[Z.mul]. repeat split; auto.
Qed.

Lemma feed_all_emitter_inv p (Hc : (0 < chunkSize p)%Z) :
  forall chunks st, emitter_inv p st -> emitter_inv p (feed_all p st chunks).
Proof.
  intros chunks; induction chunks as [|c cs IH]; intros st H; simpl; auto.
  apply IH, feed_emitter_inv; auto.
Qed.

Lemma emitter_inv_init p seen :
  (0 < chunkSize p)%Z -> emitter_inv p (mkWState seen [] [] (chunkSize p)).
Proof.
  intros Hc. unfold emitter_inv; simpl. repeat split; auto.
  intros [|i] b Hi; discriminate.
Qed.

Lemma walk_stage_nonempty p env seen :
  (0 < chunkSize p)%Z ->
  forall b, In b (fst (fst (walk_stage p env seen))) -> b <> [].
Proof.
  intros Hc. unfold walk_stage.
  destruct (walkFiles _ _ _ _ _ _ _) as [chunks w].
  pose proof (feed_all_emitter_inv p Hc chunks _ (emitter_inv_init p seen Hc))
    as [_ [E2 _]].
  set (st := feed_all p _ chunks) in *.
  assert (Hout : forall b, In b (ws_out st) -> b <> []).
  { intros b Hb Hnil. apply In_nth_error in Hb. destruct Hb as [i Hi].
    apply E2 in Hi. subst b. cbn -[Z.mul] in Hi. destruct (Nat.eqb i 0); lia. }
  destruct w; simpl; auto.
  intros b Hb. apply in_app_or in Hb. destruct Hb as [Hb|Hb]; auto.
  destruct (ws_pending st) eqn:Ep; simpl in Hb; [contradiction|].
  destruct Hb as [<-|[]]. discriminate.
Qed.

(** ** C9: no empty batch *)

(** C9: with a positive [chunkSize] (the configuration surface defines the
    base chunk size as a positive integer), no batch the run delivers is
    empty: the buffer and MRU batches are enqueued only when non-empty, and
    the walker phase enqueues [pendingItems] only when it holds at least
    [enqueueSize >= chunkSize >= 1] items or, at the end, when non-empty. *)
Theorem no_empty_batch p env :
  (0 < chunkSize p)%Z ->
  forall b, In b (delivered (gather p env)) -> b <> [].
Proof.
  intros Hc b Hb. unfold delivered in Hb. apply in_map_iff in Hb.
  destruct Hb as [[o b'] [Heq Hin]]. simpl in Heq. subst b'.
  destruct (gather_shape p env) as [H|[B [M [W [s2 [H HW]]]]]]; rewrite H in Hin.
  - contradiction.
  - apply in_app_or in Hin. destruct Hin as [Hin|Hin]; [eapply in_enqueue_nonempty; eauto|].
    apply in_app_or in Hin. destruct Hin as [Hin|Hin]; [eapply in_enqueue_nonempty; eauto|].
    apply in_map_iff in Hin. destruct Hin as [b' [Heq Hb']]. inversion Heq; subst b'.
    destruct HW as [HW|HW]; subst W; [contradiction|].
    eapply walk_stage_nonempty; eauto.
Qed.

Lemma no_empty_batch_witness :
  (0 < chunkSize (rec_params 1 true true))%Z /\
  forall b, In b (delivered (gather (rec_params 1 true true)
                               (walk_env (flat_fs (file_names 3) None) None))) -> b <> [].
Proof.
  split; [reflexivity|].
  apply (no_empty_batch (rec_params 1 true true)
           (walk_env (flat_fs (file_names 3) None) None)).
  reflexivity.
Defined.

(** ** C5: the chunk emitter *)

Lemma feed_all_conserve p (Hd : dedup p = false) :
  forall chunks st,
  ws_all (feed_all p st chunks) =
  (ws_all st ++ concat (map (fun c => if showSourcePrefix p then map rec_prefix c else c)
                         chunks))%list.
Proof.
  intros chunks; induction chunks as [|c cs IH]; intros st; simpl.
  - rewrite app_nil_r. reflexivity.
  - rewrite IH. destruct (feed_items p st c) as [f [s [Hf [_ Ha]]]].
    rewrite Hd in Hf. inversion Hf; subst f s. rewrite Ha, app_assoc. reflexivity.
Qed.

(** C5 (amended): for a positive [chunkSize], while the walker's batches
    are fed to the emitter: the threshold is [chunkSize] until the first
    emission and [10 * chunkSize] after it, for every later emission as
    well (it is set, not multiplied again); the first emitted batch has at
    least [chunkSize] items and every later one at least [10 * chunkSize];
    what stays buffered is always below the current threshold (a batch is
    emitted as soon as the threshold is reached); with dedup off the
    emitted batches followed by the buffer are exactly the walker's items
    in order; and the buffer is flushed, when non-empty, only if the walk
    returns normally: a walk ending in a thrown error or cancellation
    drops it. *)
Theorem chunk_emission p env seen chunks w :
  (0 < chunkSize p)%Z ->
  walkFiles (env_fs env) (env_signal env) (env_root env) (ignoredDirectories p)
    (chunkSize p) (expandSymbolicLink p) (env_fuel env) = (chunks, w) ->
  let st := feed_all p (mkWState seen [] [] (chunkSize p)) chunks in
  ws_size st = (match ws_out st with [] => chunkSize p | _ :: _ => 10 * chunkSize p end)%Z /\
  (forall i b, nth_error (ws_out st) i = Some b ->
     ((if Nat.eqb i 0 then chunkSize p else 10 * chunkSize p) <= Z.of_nat (length b))%Z) /\
  (Z.of_nat (length (ws_pending st)) < ws_size st)%Z /\
  (dedup p = false ->
   (concat (ws_out st) ++ ws_pending st)%list =
   concat (map (fun c => if showSourcePrefix p then map rec_prefix c else c) chunks)) /\
  fst (fst (walk_stage p env seen)) =
    match w with
    | WDone _ =>
        (ws_out st ++ match ws_pending st with [] => [] | _ :: _ => [ws_pending st] end)%list
    | _ => ws_out st
    end.
Proof.
  intros Hc Hw st.
  destruct (feed_all_emitter_inv p Hc chunks _ (emitter_inv_init p seen Hc))
    as [E1 [E2 E3]].
  split; [exact E1|]. split; [exact E2|]. split; [exact E3|]. split.
  - intros Hd. pose proof (feed_all_conserve p Hd chunks (mkWState seen [] [] (chunkSize p)))
      as Hcons. unfold ws_all in Hcons. exact Hcons.
  - unfold walk_stage. rewrite Hw. destruct w; reflexivity.
Qed.

Lemma chunk_emission_witness :
  (0 < chunkSize (rec_params 1 false false))%Z /\
  exists chunks w,
    walkFiles (env_fs (walk_env (flat_fs (file_names 3) None) None))
      (env_signal (walk_env (flat_fs (file_names 3) None) None)) "/r" [".git"] 1 false 3
    = (chunks, w) /\
    fst (fst (walk_stage (rec_params 1 false false)
                (walk_env (flat_fs (file_names 3) None) None) [])) =
    match w with
    | WDone _ =>
        (ws_out (feed_all (rec_params 1 false false) (mkWState [] [] [] 1) chunks)
         ++ match ws_pending (feed_all (rec_params 1 false false) (mkWState [] [] [] 1) chunks)
            with [] => [] | _ :: _ =>
              [ws_pending (feed_all (rec_params 1 false false) (mkWState [] [] [] 1) chunks)] end)%list
    | _ => ws_out (feed_all (rec_params 1 false false) (mkWState [] [] [] 1) chunks)
    end.
Proof.
  split; [reflexivity|].
  eexists; eexists; split; [reflexivity|].
  apply (chunk_emission (rec_params 1 false false)
           (walk_env (flat_fs (file_names 3) None) None) []); [reflexivity|].
  reflexivity.
Defined.

(** C5, as stated, fails: with [chunkSize = 1] and a directory of 31
    files, the walker batches are delivered as [1; 10; 10; 10] items, so
    the third emission (not the last one) happened at 10 items, not at the
    threshold of 100 a second raise by 10 would give; and with a directory
    whose reading fails after two files, the second file, still buffered,
    is never delivered although the walker yielded it. *)
Lemma chunk_emission_counterexample :
  map (@length Item)
    (delivered (gather (rec_params 1 false false)
                  (walk_env (flat_fs (file_names 31) None) None))) = [1; 10; 10; 10] /\
  length (fst (walkFiles (flat_fs ["a"; "b"] (Some (ErrorNamed "EIO"))) None
                 "/r" [".git"] 1 false 3)) = 2 /\
  map (@length Item)
    (delivered (gather (rec_params 1 false false)
                  (walk_env (flat_fs ["a"; "b"] (Some (ErrorNamed "EIO"))) None))) = [1].
Proof. vm_compute. repeat split. Qed.

(** ** C7: a failing vim-mr call *)

Lemma all_strings_map l r : all_strings l = Some r -> l = map JStr r.
Proof.
  revert r; induction l as [|v l IH]; intros r H; simpl in H.
  - inversion H; reflexivity.
  - destruct v; try discriminate.
    destruct (all_strings l) eqn:E; [|discriminate].
    inversion H; subst. simpl. f_equal. auto.
Qed.

Lemma mr_call_fails r :
  r = MrTimedOut \/ (exists e, r = MrRejected e) \/
  (exists v, r = MrResolved v /\ forall l, v <> JArr (map JStr l)) ->
  exists e, mr_call r = RErr e.
Proof.
  intros [->|[[e ->]|[v [-> Hv]]]]; simpl; eauto.
  unfold ensure_strings. destruct v; eauto.
  destruct (all_strings l) eqn:E; eauto.
  apply all_strings_map in E. subst. exfalso. eapply Hv; eauto.
Qed.

(** C7: when the vim-mr dispatch times out, rejects, or resolves to a value
    that is not an array of strings, [gatherMr] returns no item, leaves the
    dedup set alone and logs one diagnostic; the run then goes on exactly
    as if vim-mr had returned an empty list: same batches, same end, and
    the same diagnostics after that one. *)
Theorem mr_failure_contained p env :
  env_mr env = MrTimedOut \/ (exists e, env_mr env = MrRejected e) \/
  (exists v, env_mr env = MrResolved v /\ forall l, v <> JArr (map JStr l)) ->
  exists d,
    (forall seen, gatherMr p seen (env_mr env) = ([], seen, [d])) /\
    traced (gather p env) = traced (gather p (with_mr env (MrResolved (JArr [])))) /\
    exhausted (gather p env) = exhausted (gather p (with_mr env (MrResolved (JArr [])))) /\
    logs (gather p env) =
      ((if enableMr p && buffer_ok p env then [d] else [])
       ++ logs (gather p (with_mr env (MrResolved (JArr [])))))%list.
Proof.
  intros H. destruct (mr_call_fails _ H) as [e He].
  assert (Hg : forall seen, gatherMr p seen (env_mr env) = ([], seen, [mr_diag e]))
    by (intros seen; unfold gatherMr; rewrite He; reflexivity).
  exists (mr_diag e). split; [exact Hg|].
  assert (Hrest : forall B s1,
    traced (gather_rest p env B s1) =
      traced (gather_rest p (with_mr env (MrResolved (JArr []))) B s1) /\
    exhausted (gather_rest p env B s1) =
      exhausted (gather_rest p (with_mr env (MrResolved (JArr []))) B s1) /\
    logs (gather_rest p env B s1) =
      ((if enableMr p then [mr_diag e] else [])
       ++ logs (gather_rest p (with_mr env (MrResolved (JArr []))) B s1))%list).
  { intros B s1. unfold gather_rest. rewrite Hg.
    change (env_mr (with_mr env (MrResolved (JArr [])))) with (MrResolved (JArr [])).
    assert (E0 : gatherMr p s1 (MrResolved (JArr [])) = ([], s1, [])) by reflexivity.
    rewrite E0.
    assert (Ew : forall s, walk_stage p (with_mr env (MrResolved (JArr []))) s =
                           walk_stage p env s) by reflexivity.
    destruct (enableMr p); simpl;
      destruct (if enableFileRec p then walk_stage p env s1 else ([], [], false))
        as [[W l3] ex] eqn:EW;
      rewrite ?Ew, EW; simpl; auto. }
  unfold gather, buffer_ok. simpl.
  destruct (enableBuffer p); simpl.
  - destruct (env_bufinfo env) as [info|e'].
    + destruct (gatherBuffer p (env_bufNr env) info (env_buftype env) []) as [B s1].
      rewrite andb_true_r. apply Hrest.
    + rewrite andb_false_r. simpl. auto.
  - rewrite andb_true_r. apply Hrest.
Qed.

Lemma mr_failure_contained_witness :
  exists d,
    (forall seen, gatherMr (rec_params 1 true true) seen MrTimedOut = ([], seen, [d])) /\
    traced (gather (rec_params 1 true true)
              (with_mr (walk_env link_fs None) MrTimedOut)) =
    traced (gather (rec_params 1 true true)
              (with_mr (with_mr (walk_env link_fs None) MrTimedOut) (MrResolved (JArr [])))) /\
    exhausted (gather (rec_params 1 true true)
              (with_mr (walk_env link_fs None) MrTimedOut)) =
    exhausted (gather (rec_params 1 true true)
              (with_mr (with_mr (walk_env link_fs None) MrTimedOut) (MrResolved (JArr [])))) /\
    logs (gather (rec_params 1 true true)
              (with_mr (walk_env link_fs None) MrTimedOut)) =
      ((if enableMr (rec_params 1 true true) &&
           buffer_ok (rec_params 1 true true) (with_mr (walk_env link_fs None) MrTimedOut)
        then [d] else [])
       ++ logs (gather (rec_params 1 true true)
              (with_mr (with_mr (walk_env link_fs None) MrTimedOut) (MrResolved (JArr [])))))%list.
Proof.
  apply (mr_failure_contained (rec_params 1 true true)
           (with_mr (walk_env link_fs None) MrTimedOut)).
  left. reflexivity.
Defined.

(** ** C10 and C3: symbolic links in the walk *)

(** C10: with [expandSymbolicLink] false, an entry that [lstat] reports as
    a symbolic link, whatever it points to, is pushed as a file item with
    [isDirectory = false] (never recursed into, never skipped as ignored or
    looped); the metadata [readStat] returns then never has [isSymlink] and
    [isDirectory] together; so the looped-symlink skip only happens with
    [expandSymbolicLink] true. *)
Theorem symlink_not_expanded fs root ign dir nm :
  lstat fs (join dir nm) = Some KSymlink ->
  walk_entry fs root ign false dir nm =
    PushFile {| word := relative root (join dir nm); display := None;
                highlights := None;
                action := {| path := join dir nm; isDirectory := false |} |} /\
  (forall path_ st, readStat fs path_ false = Some st ->
     isSymlink st && fi_isDirectory st = false) /\
  (forall ex dir' nm', walk_entry fs root ign ex dir' nm' = SkipLooped -> ex = true).
Proof.
  intros Hl. split; [|split].
  - unfold walk_entry, readStat. rewrite Hl. reflexivity.
  - intros path_ st H. unfold readStat in H.
    destruct (lstat fs path_) as [k|]; [|discriminate].
    rewrite andb_false_r in H. inversion H; subst. destruct k; reflexivity.
  - intros ex dir' nm' H. destruct ex; auto. exfalso.
    unfold walk_entry, readStat in H.
    destruct (lstat fs (join dir' nm')) as [k|]; [|discriminate].
    rewrite andb_false_r in H.
    destruct k; simpl in H; try discriminate;
      destruct (mem nm' ign); discriminate.
Qed.

Lemma symlink_not_expanded_witness :
  lstat link_fs (join "/r" "data") = Some KSymlink /\
  walk_entry link_fs "/r" [".git"] false "/r" "data" =
    PushFile {| word := relative "/r" (join "/r" "data"); display := None;
                highlights := None;
                action := {| path := join "/r" "data"; isDirectory := false |} |}.
Proof.
  split; [reflexivity|].
  apply (symlink_not_expanded link_fs "/r" [".git"] "/r" "data"). reflexivity.
Defined.





(** ** C8: dedup off *)


Lemma mr_loop_nodedup sp kind seen l :
  mr_loop false sp kind seen l =
  (map (fun x => makeItem x x kind sp (mem kind ["mrr"; "mrd"])) l, seen).
Proof. induction l as [|x l IH]; simpl; auto. rewrite IH. reflexivity. Qed.


Lemma flush_concat (st : WState) :
  concat (ws_out st ++ match ws_pending st with [] => [] | _ :: _ => [ws_pending st] end)%list
  = ws_all st.
Proof.
  unfold ws_all. rewrite concat_app.
  destruct (ws_pending st); simpl; rewrite ?app_nil_r; reflexivity.
Qed.





(** ** C4: errors while reading a directory *)

Lemma loop_err_rel fs sg root ign cs ex rec dir e : forall es chunk t,
  ends_by e (walk_loop fs sg root ign cs ex rec dir None es chunk t)
            (walk_loop fs sg root ign cs ex rec dir (Some e) es chunk t).
Proof.
  unfold ends_by.
  intros es; induction es as [|nm es IH]; intros chunk t; simpl.
  - destruct (aborted sg t); simpl; auto.
    split; auto. destruct chunk as [|c cs']; simpl; auto.
    right. exists (c :: cs'). split; [discriminate | reflexivity].
  - destruct (aborted sg t); simpl; auto.
    destruct (walk_entry fs root ign ex dir nm); try apply IH; simpl; auto.
    + match goal with |- context [(?a <=? ?b)%Z] => destruct (a <=? b)%Z end; [|apply IH].
      specialize (IH [] (S t)).
      destruct (walk_loop fs sg root ign cs ex rec dir None es [] (S t)) as [bs0 w0].
      destruct (walk_loop fs sg root ign cs ex rec dir (Some e) es [] (S t)) as [bs1 w1].
      simpl in *. destruct w0; try (inversion IH; reflexivity).
      destruct IH as [Hw [Hb|[c [Hc Hb]]]]; split; auto; subst.
      * left; reflexivity.
      * right. exists c. split; auto.
    + destruct (rec p (S t)) as [bs w]. destruct w; simpl; auto.
      specialize (IH chunk t0).
      destruct (walk_loop fs sg root ign cs ex rec dir None es chunk t0) as [bs0 w0].
      destruct (walk_loop fs sg root ign cs ex rec dir (Some e) es chunk t0) as [bs1 w1].
      simpl in *. destruct w0; try (inversion IH; reflexivity).
      destruct IH as [Hw [Hb|[c [Hc Hb]]]]; split; auto; subst.
      * left; reflexivity.
      * right. exists c. split; auto. rewrite app_assoc. reflexivity.
Qed.

(** C4: while reading a directory [dir] ([readDir fs dir] lists entries and
    then fails with the error, if any): a permission-denied failure when
    opening it makes its subtree the empty one; one after some entries ends
    the listing of [dir] with a normal return at the same point as the
    error-free listing, losing only the chunk not yet yielded, so the
    parent goes on with the next sibling as after any normal return; any
    other error [e] makes the listing end by throwing [e] (earlier batches
    are kept), [inner]'s [catch] rethrows it, each enclosing loop passes it
    on without visiting any further entry, and the aggregator then keeps
    the batches already enqueued and reports [e]. *)
Theorem dir_error_policy fs sg root ign cs ex :
  (forall f dir t, readDir fs dir = ([], Some PermissionDenied) ->
     inner fs sg root ign cs ex (S f) dir t =
     inner (with_readDir fs dir ([], None)) sg root ign cs ex (S f) dir t) /\
  (forall rec dir es t,
     let r0 := catch_pd (walk_loop fs sg root ign cs ex rec dir None es [] t) in
     let r1 := catch_pd (walk_loop fs sg root ign cs ex rec dir (Some PermissionDenied) es [] t) in
     snd r1 = snd r0 /\
     (fst r1 = fst r0 \/ exists c, c <> [] /\ fst r0 = (fst r1 ++ [c])%list)) /\
  (forall rec dir es t e, e <> PermissionDenied ->
     ends_by e (walk_loop fs sg root ign cs ex rec dir None es [] t)
               (walk_loop fs sg root ign cs ex rec dir (Some e) es [] t) /\
     forall bs t', catch_pd (bs, WThrow e t') = (bs, WThrow e t')) /\
  (forall rec dir rderr nm es chunk t p bs e t',
     aborted sg t = None -> walk_entry fs root ign ex dir nm = Recurse p ->
     rec p (S t) = (bs, WThrow e t') ->
     walk_loop fs sg root ign cs ex rec dir rderr (nm :: es) chunk t = (bs, WThrow e t')) /\
  (forall rec dir rderr nm es chunk t p bs t',
     aborted sg t = None -> walk_entry fs root ign ex dir nm = Recurse p ->
     rec p (S t) = (bs, WDone t') ->
     walk_loop fs sg root ign cs ex rec dir rderr (nm :: es) chunk t =
       let '(bs2, w2) := walk_loop fs sg root ign cs ex rec dir rderr es chunk t' in
       ((bs ++ bs2)%list, w2)) /\
  (forall p env seen chunks e t',
     env_fs env = fs -> env_signal env = sg -> env_root env = root ->
     ignoredDirectories p = ign -> chunkSize p = cs -> expandSymbolicLink p = ex ->
     walkFiles fs sg root ign cs ex (env_fuel env) = (chunks, WThrow e t') ->
     walk_stage p env seen =
       (ws_out (feed_all p (mkWState seen [] [] cs) chunks), report e, false)).
Proof.
  split; [|split; [|split; [|split; [|split]]]].
  - intros f dir t Hr. simpl. rewrite Hr, String.eqb_refl. simpl.
    destruct (aborted sg t); reflexivity.
  - intros rec dir es t r0 r1. unfold r0, r1.
    pose proof (loop_err_rel fs sg root ign cs ex rec dir PermissionDenied es [] t) as H.
    unfold ends_by in H.
    destruct (walk_loop fs sg root ign cs ex rec dir None es [] t) as [bs0 w0].
    destruct (walk_loop fs sg root ign cs ex rec dir (Some PermissionDenied) es [] t)
      as [bs1 w1].
    simpl in H. destruct w0.
    + destruct H as [Hw Hb]. simpl in Hw. subst w1. simpl. auto.
    + inversion H; subst. auto.
    + inversion H; subst. auto.
  - intros rec dir es t e He. split.
    + apply loop_err_rel.
    + intros bs t'. destruct e; [contradiction| | |]; reflexivity.
  - intros rec dir rderr nm es chunk t p bs e t' Ha He Hr. simpl.
    rewrite Ha, He, Hr. reflexivity.
  - intros rec dir rderr nm es chunk t p bs t' Ha He Hr. simpl.
    rewrite Ha, He, Hr. reflexivity.
  - intros p env seen chunks e t' Hf Hs Hrt Hi Hc Hx Hw.
    unfold walk_stage. rewrite Hf, Hs, Hrt, Hi, Hc, Hx, Hw. reflexivity.
Qed.

Lemma dir_error_policy_witness :
  ends_by (ErrorNamed "EIO")
    (walk_loop (tree_fs None None) None "/r" [".git"] 1 false
       (inner (tree_fs None None) None "/r" [".git"] 1 false 2) "/r" None ["a"; "d"] [] 0)
    (walk_loop (tree_fs None None) None "/r" [".git"] 1 false
       (inner (tree_fs None None) None "/r" [".git"] 1 false 2) "/r"
       (Some (ErrorNamed "EIO")) ["a"; "d"] [] 0) /\
  walk_loop (tree_fs None (Some (ErrorNamed "EIO"))) None "/r" [".git"] 1 false
    (inner (tree_fs None (Some (ErrorNamed "EIO"))) None "/r" [".git"] 1 false 2)
    "/r" None ["d"; "a"] [] 0 =
  (fst (inner (tree_fs None (Some (ErrorNamed "EIO"))) None "/r" [".git"] 1 false 2 "/r/d" 1),
   WThrow (ErrorNamed "EIO") 3).
Proof.
  destruct (dir_error_policy (tree_fs None None) None "/r" [".git"] 1 false)
    as [_ [_ [H3 _]]].
  destruct (dir_error_policy (tree_fs None (Some (ErrorNamed "EIO"))) None "/r" [".git"] 1 false)
    as [_ [_ [_ [H4 _]]]].
  split.
  - apply (H3 _ "/r" ["a"; "d"] 0 (ErrorNamed "EIO")). discriminate.
  - apply (H4 _ "/r" None "d" ["a"] [] 0 "/r/d"); reflexivity.
Defined.

(** ** C6: cancellation *)

Lemma catch_pd_tick r : end_tick (snd (catch_pd r)) = end_tick (snd r).
Proof. destruct r as [bs [|[] |]]; reflexivity. Qed.

Lemma walk_loop_tick fs sg root ign cs ex rec dir rderr :
  (forall p t t', end_tick (snd (rec p t)) = Some t' -> t < t') ->
  forall es chunk t t',
  end_tick (snd (walk_loop fs sg root ign cs ex rec dir rderr es chunk t)) = Some t' ->
  t < t'.
Proof.
  intros Hrec es; induction es as [|nm es IH]; intros chunk t t' H; simpl in H.
  - destruct (aborted sg t); simpl in H; [inversion H; lia|].
    destruct rderr; simpl in H; inversion H; lia.
  - destruct (aborted sg t); simpl in H; [inversion H; lia|].
    destruct (walk_entry fs root ign ex dir nm).
    + apply IH in H. lia.
    + destruct (_ <=? _)%Z.
      * destruct (walk_loop _ _ _ _ _ _ _ _ _ _ [] (S t)) as [bs w] eqn:E.
        simpl in H. assert (S t < t') by (apply (IH [] (S t)); rewrite E; exact H). lia.
      * apply IH in H. lia.
    + apply IH in H. lia.
    + apply IH in H. lia.
    + specialize (Hrec p (S t)).
      destruct (rec p (S t)) as [bs w]. simpl in Hrec.
      destruct w; simpl in H.
      * destruct (walk_loop _ _ _ _ _ _ _ _ _ _ chunk t0) as [bs2 w2] eqn:E.
        simpl in H. assert (t0 < t') by (apply (IH chunk t0); rewrite E; exact H).
        specialize (Hrec t0 eq_refl). lia.
      * inversion H; subst. specialize (Hrec t' eq_refl). lia.
      * discriminate.
    + simpl in H. inversion H; lia.
Qed.

Lemma inner_tick fs sg root ign cs ex : forall fuel dir t t',
  end_tick (snd (inner fs sg root ign cs ex fuel dir t)) = Some t' -> t < t'.
Proof.
  intros fuel; induction fuel as [|f IH]; intros dir t t' H; simpl in H; [discriminate|].
  destruct (readDir fs dir) as [es rderr].
  rewrite catch_pd_tick in H. eapply walk_loop_tick; [|exact H].
  intros p t0 t1. apply IH.
Qed.

Lemma prefix_refl {A} (l : list A) : prefix l l.
Proof. exists []. rewrite app_nil_r. reflexivity. Qed.

Lemma prefix_nil {A} (l : list A) : prefix [] l.
Proof. exists l. reflexivity. Qed.

Lemma prefix_app {A} (l l1 l2 : list A) : prefix l1 l2 -> prefix (l ++ l1) (l ++ l2).
Proof. intros [l3 ->]. exists l3. rewrite app_assoc. reflexivity. Qed.

Lemma prefix_trans {A} (l1 l2 l3 : list A) : prefix l1 l2 -> prefix l2 l3 -> prefix l1 l3.
Proof. intros [a ->] [b ->]. exists (a ++ b)%list. rewrite app_assoc. reflexivity. Qed.

Lemma prefix_app_r {A} (l1 l2 l : list A) : prefix l1 l2 -> prefix l1 (l2 ++ l).
Proof. intros H. eapply prefix_trans; [exact H|]. exists l. reflexivity. Qed.

Lemma rel_throw k r r0 bs1 :
  prefix bs1 (fst r0) ->
  (forall t', end_tick (snd r0) = Some t' -> k < t') ->
  cancel_rel k r r0 (bs1, WThrow r (S k)).
Proof.
  intros Hp Ht. unfold cancel_rel.
  destruct (end_tick (snd r0)) as [t'|] eqn:E.
  - specialize (Ht t' eq_refl). destruct (Nat.leb_spec t' k); [lia|]. eauto.
  - right. eauto.
Qed.

Lemma rel_refl k r r0 :
  (forall t', end_tick (snd r0) = Some t' -> t' <= k) -> cancel_rel k r r0 r0.
Proof.
  intros H. unfold cancel_rel.
  destruct (end_tick (snd r0)) as [t'|] eqn:E; auto.
  specialize (H t' eq_refl). destruct (Nat.leb_spec t' k); [reflexivity|lia].
Qed.

Lemma rel_app k r bs bs0 w0 bs1 w1 :
  cancel_rel k r (bs0, w0) (bs1, w1) ->
  cancel_rel k r ((bs ++ bs0)%list, w0) ((bs ++ bs1)%list, w1).
Proof.
  unfold cancel_rel; simpl.
  destruct (end_tick w0) as [t'|].
  - destruct (Nat.leb t' k).
    + intros H; inversion H; subst; reflexivity.
    + intros [b [H Hp]]. inversion H; subst.
      exists (bs ++ b)%list. split; [reflexivity|]. apply prefix_app; auto.
  - intros [H|[b [H Hp]]]; [inversion H; subst; auto|].
    inversion H; subst. right. exists (bs ++ b)%list. split; [reflexivity|].
    apply prefix_app; auto.
Qed.

Lemma rel_catch k r r0 r1 : r <> PermissionDenied ->
  cancel_rel k r r0 r1 -> cancel_rel k r (catch_pd r0) (catch_pd r1).
Proof.
  intros Hr. unfold cancel_rel. rewrite catch_pd_tick, catch_pd_fst.
  assert (Hc : forall bs, catch_pd (bs, WThrow r (S k)) = (bs, WThrow r (S k)))
    by (intros bs; destruct r; [contradiction| | |]; reflexivity).
  destruct (end_tick (snd r0)) as [t'|].
  - destruct (Nat.leb t' k).
    + intros ->. reflexivity.
    + intros [b [-> Hp]]. rewrite Hc. eauto.
  - intros [->|[b [-> Hp]]]; [auto|]. rewrite Hc. eauto.
Qed.

Lemma rel_cons k r c bs0 w0 bs1 w1 :
  cancel_rel k r (bs0, w0) (bs1, w1) -> cancel_rel k r (c :: bs0, w0) (c :: bs1, w1).
Proof. apply (rel_app k r [c]). Qed.

Lemma walk_loop_cancel fs root ign cs ex k r rec0 rec1 dir rderr :
  (forall p t t', end_tick (snd (rec0 p t)) = Some t' -> t < t') ->
  (forall p t, t <= k -> cancel_rel k r (rec0 p t) (rec1 p t)) ->
  forall es chunk t, t <= k ->
  cancel_rel k r (walk_loop fs None root ign cs ex rec0 dir rderr es chunk t)
                 (walk_loop fs (Some (k, r)) root ign cs ex rec1 dir rderr es chunk t).
Proof.
  intros Hmono Hrec es; induction es as [|nm es IH]; intros chunk t Ht.
  - simpl. destruct (Nat.leb_spec k t) as [Hkt|Hkt].
    + assert (t = k) by lia. subst t.
      apply rel_throw; [apply prefix_nil|].
      intros t'. destruct rderr; [|destruct chunk]; simpl; intros H; inversion H; lia.
    + apply rel_refl. intros t'. destruct rderr; [|destruct chunk]; simpl;
        intros H'; inversion H'; lia.
  - assert (Hm : forall t', end_tick (snd (walk_loop fs None root ign cs ex rec0 dir rderr
                                             (nm :: es) chunk t)) = Some t' -> t < t')
      by (intros t'; apply walk_loop_tick; exact Hmono).
    cbn [walk_loop aborted]. destruct (Nat.leb_spec k t) as [Hkt|Hkt].
    + assert (t = k) by lia. subst t.
      apply rel_throw; [apply prefix_nil|]. intros t' H'. apply Hm. exact H'.
    + assert (Ht' : S t <= k) by lia.
      destruct (walk_entry fs root ign ex dir nm); try (apply IH; exact Ht').
      * match goal with |- context [(?a <=? ?b)%Z] => destruct (a <=? b)%Z end;
          [|apply IH; exact Ht'].
        specialize (IH [] (S t) Ht').
        destruct (walk_loop fs None root ign cs ex rec0 dir rderr es [] (S t)) as [bs0 w0].
        destruct (walk_loop fs (Some (k, r)) root ign cs ex rec1 dir rderr es [] (S t))
          as [bs1 w1].
        apply rel_cons. exact IH.
      * specialize (Hrec p (S t) Ht'). pose proof (Hmono p (S t)) as Hm0.
        destruct (rec0 p (S t)) as [bs w].
        destruct (rec1 p (S t)) as [bs' w'].
        unfold cancel_rel in Hrec. simpl in Hrec, Hm0.
        destruct w as [t0|e t0|].
        -- simpl in Hrec. specialize (Hm0 t0 eq_refl).
           destruct (Nat.leb_spec t0 k) as [Hk0|Hk0].
           ++ inversion Hrec; subst.
              specialize (IH chunk t0 ltac:(lia)).
              destruct (walk_loop fs None root ign cs ex rec0 dir rderr es chunk t0)
                as [bs2 w2].
              destruct (walk_loop fs (Some (k, r)) root ign cs ex rec1 dir rderr es chunk t0)
                as [bs2' w2'].
              apply rel_app. exact IH.
           ++ destruct Hrec as [b [Hb Hp]]. inversion Hb; subst.
              destruct (walk_loop fs None root ign cs ex rec0 dir rderr es chunk t0)
                as [bs2 w2] eqn:E.
              apply rel_throw.
              ** simpl. apply prefix_app_r. exact Hp.
              ** intros t' Ht2. simpl in Ht2.
                 assert (t0 < t')
                   by (apply (walk_loop_tick fs None root ign cs ex rec0 dir rderr Hmono
                                es chunk t0); rewrite E; exact Ht2).
                 lia.
        -- simpl in Hrec. destruct (Nat.leb_spec t0 k) as [Hk0|Hk0].
           ++ inversion Hrec; subst. apply rel_refl. simpl. intros t' H'. inversion H'. lia.
           ++ destruct Hrec as [b [Hb Hp]]. inversion Hb; subst.
              apply rel_throw; [exact Hp|]. simpl. intros t' H'. inversion H'. lia.
        -- simpl in Hrec. destruct Hrec as [Hb|[b [Hb Hp]]]; inversion Hb; subst.
           ++ unfold cancel_rel. simpl. left. reflexivity.
           ++ apply rel_throw; [exact Hp|]. simpl. discriminate.
      * apply rel_refl. simpl. intros t' H'. inversion H'. lia.
Qed.

Lemma inner_cancel fs root ign cs ex k r : r <> PermissionDenied ->
  forall fuel dir t, t <= k ->
  cancel_rel k r (inner fs None root ign cs ex fuel dir t)
                 (inner fs (Some (k, r)) root ign cs ex fuel dir t).
Proof.
  intros Hr fuel; induction fuel as [|f IH]; intros dir t Ht.
  - unfold cancel_rel. simpl. left. reflexivity.
  - simpl. destruct (readDir fs dir) as [es rderr].
    apply rel_catch; [exact Hr|].
    apply walk_loop_cancel; [|intros p t0 H0; apply IH; exact H0|exact Ht].
    intros p t0 t1. apply inner_tick.
Qed.

Lemma feed_all_app p st c1 c2 :
  feed_all p st (c1 ++ c2) = feed_all p (feed_all p st c1) c2.
Proof. unfold feed_all. apply fold_left_app. Qed.

Lemma feed_all_out_prefix p : forall cs st, prefix (ws_out st) (ws_out (feed_all p st cs)).
Proof.
  intros cs; induction cs as [|c cs IH]; intros st; simpl; [apply prefix_refl|].
  eapply prefix_trans; [|apply IH].
  unfold feed. destruct (if dedup p then _ else _) as [f s].
  match goal with |- context [(?a <=? ?b)%Z] => destruct (a <=? b)%Z end; simpl;
    [eexists; reflexivity|apply prefix_refl].
Qed.

Lemma out_prefix_any p st bs1 bs0 (extra : list batch) :
  prefix bs1 bs0 ->
  prefix (ws_out (feed_all p st bs1)) (ws_out (feed_all p st bs0) ++ extra)%list.
Proof.
  intros [l ->]. rewrite feed_all_app. apply prefix_app_r. apply feed_all_out_prefix.
Qed.

Lemma walk_stage_cancel p env k r seen :
  env_signal env = Some (k, r) -> r <> PermissionDenied ->
  prefix (fst (fst (walk_stage p env seen)))
         (fst (fst (walk_stage p (with_signal env None) seen))).
Proof.
  intros Hs Hr. unfold walk_stage. simpl. rewrite Hs.
  pose proof (inner_cancel (env_fs env) (env_root env) (ignoredDirectories p) (chunkSize p)
                (expandSymbolicLink p) k r Hr (env_fuel env) (env_root env) 0 (Nat.le_0_l k))
    as H.
  unfold walkFiles.
  destruct (inner (env_fs env) None _ _ _ _ _ _ 0) as [bs0 w0].
  destruct (inner (env_fs env) (Some (k, r)) _ _ _ _ _ _ 0) as [bs1 w1].
  set (st := mkWState seen [] [] (chunkSize p)).
  assert (Hth : prefix bs1 bs0 -> w1 = WThrow r (S k) ->
    prefix (fst (fst (match w1 with
      | WDone _ => ((ws_out (feed_all p st bs1) ++
          match ws_pending (feed_all p st bs1) with [] => [] | _ :: _ => [ws_pending (feed_all p st bs1)] end)%list, [], false)
      | WThrow e _ => (ws_out (feed_all p st bs1), report e, false)
      | WNoFuel => (ws_out (feed_all p st bs1), [], true) end)))
    (fst (fst (match w0 with
      | WDone _ => ((ws_out (feed_all p st bs0) ++
          match ws_pending (feed_all p st bs0) with [] => [] | _ :: _ => [ws_pending (feed_all p st bs0)] end)%list, [], false)
      | WThrow e _ => (ws_out (feed_all p st bs0), report e, false)
      | WNoFuel => (ws_out (feed_all p st bs0), [], true) end)))).
  { intros Hp ->. simpl. destruct w0; simpl; [apply out_prefix_any; exact Hp| |];
      rewrite <- (app_nil_r (ws_out (feed_all p st bs0))); apply out_prefix_any; exact Hp. }
  unfold cancel_rel in H. simpl in H.
  destruct (end_tick w0) as [t'|].
  - destruct (Nat.leb t' k).
    + inversion H; subst. apply prefix_refl.
    + destruct H as [b [Hb Hp]]. inversion Hb; subst. apply Hth; auto.
  - destruct H as [Hb|[b [Hb Hp]]]; inversion Hb; subst; [apply prefix_refl|].
    apply Hth; auto.
Qed.

(** C6: the code departs from the claim.  Only file_rec on, [chunkSize]
    1, a root [/r] of three files; the consumer cancels without a reason
    while the walker waits for its second entry, so the signal's reason is
    the [DOMException] named [AbortError].  The first batch stands, the
    walk stops there, and the run reports the abort with [console.error]:
    the catch ignores only [Error]s whose name contains [AbortReason].
    Without the cancellation the same run logs nothing. *)
Lemma cancel_behaviour_counterexample :
  map (@length Item)
    (delivered (gather (rec_params 1 false false)
       (walk_env (flat_fs (file_names 3) None) (Some (1, DOMExc "AbortError"))))) = [1] /\
  logs (gather (rec_params 1 false false)
          (walk_env (flat_fs (file_names 3) None) (Some (1, DOMExc "AbortError"))))
  = [DiagError (DOMExc "AbortError")] /\
  is_abort_reason (DOMExc "AbortError") = false /\
  map (@length Item)
    (delivered (gather (rec_params 1 false false)
       (walk_env (flat_fs (file_names 3) None) None))) = [1; 2] /\
  logs (gather (rec_params 1 false false) (walk_env (flat_fs (file_names 3) None) None)) = [].
Proof. vm_compute. repeat split. Qed.

(* ================================================================== *)
(** * Further properties of the source *)

(** ** [normalizePath] *)

Lemma list_of_string_app s1 s2 :
  list_of_string (s1 ++ s2) = (list_of_string s1 ++ list_of_string s2)%list.
Proof. induction s1 as [|c s1 IH]; simpl; congruence. Qed.

Lemma list_of_string_of_list l : list_of_string (string_of_list l) = l.
Proof. induction l as [|c l IH]; simpl; congruence. Qed.

Lemma drop_slashes_idem l : drop_slashes (drop_slashes l) = drop_slashes l.
Proof.
  induction l as [|c l IH]; simpl; auto.
  destruct (Ascii.eqb c "/") eqn:E; auto. simpl. rewrite E. reflexivity.
Qed.

Lemma drop_slashes_head l :
  match drop_slashes l with c :: _ => Ascii.eqb c "/" = false | [] => True end.
Proof.
  induction l as [|c l IH]; simpl; auto.
  destruct (Ascii.eqb c "/") eqn:E; auto.
Qed.

Lemma ends_with_slash_rev s :
  ends_with_slash s =
  match rev (list_of_string s) with c :: _ => Ascii.eqb c "/" | [] => false end.
Proof.
  induction s as [|c s IH]; simpl; auto.
  destruct s as [|d s'].
  - reflexivity.
  - change (ends_with_slash (String d s') =
      match (rev (list_of_string (String d s')) ++ [c])%list with
      | c :: _ => Ascii.eqb c "/" | [] => false end).
    rewrite IH. destruct (rev (list_of_string (String d s'))) eqn:E.
    + simpl in E. destruct (rev (list_of_string s')); discriminate.
    + reflexivity.
Qed.

(** [normalizePath] ignores trailing slashes: appending one does not
    change the key, normalizing twice is normalizing once, and a key never
    ends with a slash. *)
Theorem normalizePath_trailing p :
  normalizePath (p ++ "/") = normalizePath p /\
  normalizePath (normalizePath p) = normalizePath p /\
  ends_with_slash (normalizePath p) = false.
Proof.
  unfold normalizePath. split; [|split].
  - rewrite list_of_string_app. simpl. rewrite rev_app_distr. reflexivity.
  - rewrite list_of_string_of_list, rev_involutive, drop_slashes_idem. reflexivity.
  - rewrite ends_with_slash_rev, list_of_string_of_list, rev_involutive.
    pose proof (drop_slashes_head (rev (list_of_string p))) as H.
    destruct (drop_slashes (rev (list_of_string p))); auto.
Qed.

(** ** The buffer order *)

Lemma insert_by_perm cmp x l : Permutation (insert_by cmp x l) (x :: l).
Proof.
  induction l as [|y l IH]; simpl; auto.
  destruct (cmp x y <? 0)%Z; auto.
  eapply perm_trans; [apply perm_skip, IH|apply perm_swap].
Qed.

Lemma sort_by_perm cmp : forall l acc,
  Permutation (fold_left (fun acc x => insert_by cmp x acc) l acc) (acc ++ l)%list.
Proof.
  intros l; induction l as [|x l IH]; intros acc; simpl.
  - rewrite app_nil_r. auto.
  - eapply perm_trans; [apply IH|].
    eapply perm_trans; [apply Permutation_app_tail, insert_by_perm|].
    simpl. apply Permutation_middle.
Qed.

Section Insertion.
Variables (cmp : BufInfo -> BufInfo -> Z) (R : BufInfo -> BufInfo -> Prop).

(** What the comparator says of a later element [x] against an earlier
    one [y]. *)
Definition cmp_ok (y x : BufInfo) : Prop :=
  ((cmp x y < 0)%Z -> R x y) /\ (~ (cmp x y < 0)%Z -> R y x).

Lemma insert_by_hd y x l :
  HdRel R y l -> R y x -> HdRel R y (insert_by cmp x l).
Proof.
  intros H Hyx. destruct l as [|z l]; simpl; auto.
  destruct (cmp x z <? 0)%Z; auto. inversion H; auto.
Qed.

Lemma insert_by_sorted x l :
  Sorted R l -> (forall y, In y l -> cmp_ok y x) -> Sorted R (insert_by cmp x l).
Proof.
  induction l as [|y l IH]; intros Hs Hok; simpl; auto.
  inversion Hs as [|? ? Hs' Hhd]; subst.
  destruct (Z.ltb_spec (cmp x y) 0) as [Hlt|Hge].
  - constructor; auto. constructor. apply (proj1 (Hok y (or_introl eq_refl))). exact Hlt.
  - constructor.
    + apply IH; auto. intros z Hz. apply Hok. right; auto.
    + apply insert_by_hd; auto. apply (proj2 (Hok y (or_introl eq_refl))). lia.
Qed.

Lemma FOP_app_mid (l1 l2 : list BufInfo) x :
  ForallOrdPairs cmp_ok (l1 ++ x :: l2) -> forall y, In y l1 -> cmp_ok y x.
Proof.
  induction l1 as [|a l1 IH]; simpl; [tauto|].
  intros H y [<-|Hy]; inversion H as [|? ? Hf Hp]; subst.
  - rewrite Forall_forall in Hf. apply Hf. apply in_or_app. right; left; auto.
  - apply IH; auto.
Qed.

Lemma sort_by_sorted : forall rest acc done_,
  Permutation acc done_ -> ForallOrdPairs cmp_ok (done_ ++ rest) -> Sorted R acc ->
  Sorted R (fold_left (fun acc x => insert_by cmp x acc) rest acc).
Proof.
  intros rest; induction rest as [|x rest IH]; intros acc done_ Hp Hf Hs; simpl; auto.
  apply (IH _ (done_ ++ [x])%list).
  - eapply perm_trans; [apply insert_by_perm|].
    eapply perm_trans; [apply perm_skip, Hp|]. apply Permutation_cons_append.
  - rewrite <- app_assoc. exact Hf.
  - apply insert_by_sorted; auto. intros y Hy.
    apply (FOP_app_mid done_ rest x Hf). eapply Permutation_in; eauto.
Qed.

End Insertion.

Lemma FOP_of_all {A} (Q : A -> A -> Prop) (l : list A) :
  (forall x y, Q x y) -> ForallOrdPairs Q l.
Proof.
  intros H. induction l; constructor; auto. apply Forall_forall. auto.
Qed.

Lemma FOP_of_nodup (Q : BufInfo -> BufInfo -> Prop) (l : list BufInfo) :
  (forall x y, bufnr x <> bufnr y -> Q x y) -> NoDup (map bufnr l) -> ForallOrdPairs Q l.
Proof.
  intros H Hn. induction l as [|a l IH]; simpl in Hn; constructor.
  - inversion Hn as [|? ? Hni]; subst. apply Forall_forall. intros y Hy.
    apply H. intros E. apply Hni. rewrite E. apply in_map; auto.
  - inversion Hn; auto.
Qed.

(** With [bufferOrderby = "desc"] and listed buffers of distinct numbers,
    [gatherBuffer] visits every listed buffer exactly once, in an order
    where no buffer precedes another unless it is not the current buffer
    and the other one is the current buffer or was used no later: the
    current buffer comes last, the others most recently used first. *)
Theorem sorted_buffers_desc bufNr info :
  NoDup (map bufnr (filter listed (buffers info))) ->
  Permutation (sorted_buffers "desc" bufNr info) (filter listed (buffers info)) /\
  StronglySorted (fun a b => bufnr a <> bufNr /\
                             (bufnr b = bufNr \/ (lastused b <= lastused a)%Z))
    (sorted_buffers "desc" bufNr info).
Proof.
  intros Hn. unfold sorted_buffers, sort_by. split.
  - apply (sort_by_perm _ _ []).
  - apply Sorted_StronglySorted.
    + intros a b c [Ha Hab] [Hb Hbc]. split; auto.
      destruct Hab as [Hab|Hab]; [contradiction|].
      destruct Hbc as [Hbc|Hbc]; [left; auto|right; lia].
    + apply (sort_by_sorted _ _ _ [] []); auto.
      apply FOP_of_nodup; auto.
      intros y x Hxy. unfold cmp_ok, buf_cmp. simpl. split.
      * destruct (Z.eqb_spec (bufnr x) bufNr); [lia|].
        destruct (Z.eqb_spec (bufnr y) bufNr); [auto|]. intros H. split; auto. right; lia.
      * destruct (Z.eqb_spec (bufnr x) bufNr).
        -- intros _. split; [congruence|left; auto].
        -- destruct (Z.eqb_spec (bufnr y) bufNr); [lia|]. intros H. split; auto. right; lia.
Qed.

Lemma sorted_buffers_desc_witness :
  NoDup (map bufnr (filter listed (buffers
    (mkGetBufInfo "/x" 0 [mkBufInfo 1 false 30 true "/x/a"; mkBufInfo 2 false 10 true "/x/b";
                          mkBufInfo 3 false 20 true "/x/c"; mkBufInfo 4 false 40 false "/x/d"])))) /\
  map bufnr (sorted_buffers "desc" 1
    (mkGetBufInfo "/x" 0 [mkBufInfo 1 false 30 true "/x/a"; mkBufInfo 2 false 10 true "/x/b";
                          mkBufInfo 3 false 20 true "/x/c"; mkBufInfo 4 false 40 false "/x/d"]))
  = [3; 2; 1]%Z /\
  StronglySorted (fun a b => bufnr a <> 1%Z /\ (bufnr b = 1%Z \/ (lastused b <= lastused a)%Z))
    (sorted_buffers "desc" 1
      (mkGetBufInfo "/x" 0 [mkBufInfo 1 false 30 true "/x/a"; mkBufInfo 2 false 10 true "/x/b";
                            mkBufInfo 3 false 20 true "/x/c"; mkBufInfo 4 false 40 false "/x/d"])).
Proof.
  assert (Hn : NoDup (map bufnr (filter listed (buffers
    (mkGetBufInfo "/x" 0 [mkBufInfo 1 false 30 true "/x/a"; mkBufInfo 2 false 10 true "/x/b";
                          mkBufInfo 3 false 20 true "/x/c"; mkBufInfo 4 false 40 false "/x/d"])))))
    by (simpl; repeat constructor; simpl; lia).
  split; [exact Hn|]. split; [vm_compute; reflexivity|].
  apply (sorted_buffers_desc 1 _ Hn).
Defined.

(** With any other [bufferOrderby] (["asc"] or anything else),
    [gatherBuffer] visits every listed buffer exactly once, least recently
    used first. *)
Theorem sorted_buffers_asc orderby bufNr info :
  orderby <> "desc" ->
  Permutation (sorted_buffers orderby bufNr info) (filter listed (buffers info)) /\
  StronglySorted (fun a b => (lastused a <= lastused b)%Z) (sorted_buffers orderby bufNr info).
Proof.
  intros Ho. unfold sorted_buffers, sort_by. split.
  - apply (sort_by_perm _ _ []).
  - apply Sorted_StronglySorted.
    + intros a b c Hab Hbc. lia.
    + apply (sort_by_sorted _ _ _ [] []); auto.
      apply FOP_of_all. intros y x. unfold cmp_ok, buf_cmp.
      destruct (String.eqb_spec orderby "desc"); [contradiction|]. lia.
Qed.

Lemma sorted_buffers_asc_witness :
  "asc" <> "desc" /\
  map bufnr (sorted_buffers "asc" 1
    (mkGetBufInfo "/x" 0 [mkBufInfo 1 false 30 true "/x/a"; mkBufInfo 2 false 10 true "/x/b"]))
  = [2; 1]%Z /\
  StronglySorted (fun a b => (lastused a <= lastused b)%Z)
    (sorted_buffers "asc" 1
      (mkGetBufInfo "/x" 0 [mkBufInfo 1 false 30 true "/x/a"; mkBufInfo 2 false 10 true "/x/b"])).
Proof.
  split; [discriminate|]. split; [vm_compute; reflexivity|].
  apply (sorted_buffers_asc "asc"). discriminate.
Defined.

(** ** The walker *)

Lemma walk_entry_pushed fs root ign ex dir nm it :
  walk_entry fs root ign ex dir nm = PushFile it ->
  word it = relative root (path (action it)) /\ display it = None /\
  highlights it = None /\ isDirectory (action it) = false /\
  exists st, readStat fs (path (action it)) ex = Some st /\ fi_isDirectory st = false.
Proof.
  intros H. unfold walk_entry in H.
  destruct (readStat fs (join dir nm) ex) as [st|] eqn:E; [|discriminate].
  destruct (fi_isDirectory st) eqn:D; simpl in H.
  - destruct (mem nm ign); [discriminate|].
    destruct (isSymlink st); simpl in H; [|discriminate].
    destruct (realPath fs (join dir nm)) as [rp|e]; [destruct (includes (join dir nm) rp)|];
      discriminate.
  - inversion H; subst; simpl. repeat split; auto. exists st; auto.
Qed.

(** Every item [walkFiles] yields names an entry whose metadata (as
    [readStat] reports it) is not a directory; its word is the path
    relative to the root, it carries no display and no highlight, and it
    is marked as a file. *)
Theorem walkFiles_items fs sg root ign cs ex fuel :
  Forall (Forall (fun it =>
    word it = relative root (path (action it)) /\ display it = None /\
    highlights it = None /\ isDirectory (action it) = false /\
    exists st, readStat fs (path (action it)) ex = Some st /\ fi_isDirectory st = false))
  (fst (walkFiles fs sg root ign cs ex fuel)).
Proof. apply inner_items. intros dir nm it H. exact (walk_entry_pushed _ _ _ _ _ _ _ H). Qed.

Section Batches.
Variables (fs : FS) (sg : signal) (root : string) (ign : list string)
  (cs : Z) (ex : bool).

Lemma walk_loop_batches rec dir rderr :
  (forall p t, Forall (batch_ok cs) (fst (rec p t))) ->
  forall es chunk t, chunk = [] \/ (Z.of_nat (length chunk) < cs)%Z ->
  Forall (batch_ok cs) (fst (walk_loop fs sg root ign cs ex rec dir rderr es chunk t)).
Proof.
  intros Hrec es; induction es as [|nm es IH]; intros chunk t Hc; simpl.
  - destruct (aborted sg t); simpl; auto.
    destruct rderr; simpl; auto. destruct chunk as [|i c]; simpl; auto.
    constructor; auto. split; [discriminate|].
    destruct Hc as [Hc|Hc]; [discriminate|lia].
  - destruct (aborted sg t); simpl; auto.
    destruct (walk_entry fs root ign ex dir nm) eqn:E; auto.
    + rewrite length_app. simpl.
      destruct (Z.leb_spec cs (Z.of_nat (length chunk + 1))) as [Hle|Hgt].
      * specialize (IH [] (S t) (or_introl eq_refl)).
        destruct (walk_loop _ _ _ _ _ _ _ _ _ _ [] (S t)) as [bs w]; simpl in *.
        constructor; auto. split.
        -- destruct chunk; discriminate.
        -- rewrite length_app. simpl.
           destruct Hc as [->|Hc]; simpl; lia.
      * apply IH. right. rewrite length_app. simpl. lia.
    + specialize (Hrec p (S t)).
      destruct (rec p (S t)) as [bs w]; simpl in *.
      destruct w; simpl; auto.
      specialize (IH chunk t0 Hc).
      destruct (walk_loop _ _ _ _ _ _ _ _ _ _ chunk t0) as [bs2 w2]; simpl in *.
      apply Forall_app; auto.
Qed.

Lemma inner_batches : forall fuel dir t,
  Forall (batch_ok cs) (fst (inner fs sg root ign cs ex fuel dir t)).
Proof.
  intros fuel; induction fuel as [|f IH]; intros dir t; simpl; auto.
  destruct (readDir fs dir) as [es rderr].
  rewrite catch_pd_fst. apply walk_loop_batches; auto.
Qed.

End Batches.

(** Every batch [walkFiles] yields is non-empty and holds at most
    [chunkSize] items (one item when [chunkSize] is below 1). *)
Theorem walkFiles_batches fs sg root ign cs ex fuel :
  Forall (fun b => b <> [] /\ (Z.of_nat (length b) <= Z.max 1 cs)%Z)
    (fst (walkFiles fs sg root ign cs ex fuel)).
Proof. apply inner_batches. Qed.

(** With [expandSymbolicLink] on, a symbolic link whose target cannot be
    stat'ed (a dangling link) is skipped, and a symbolic link to anything
    but a directory is yielded as a file under the link's own path. *)
Theorem symlink_expanded fs root ign dir nm :
  lstat fs (join dir nm) = Some KSymlink ->
  (stat fs (join dir nm) = None -> walk_entry fs root ign true dir nm = StatFailed) /\
  (forall k, stat fs (join dir nm) = Some k -> k <> KDir ->
     walk_entry fs root ign true dir nm =
       PushFile {| word := relative root (join dir nm); display := None;
                   highlights := None;
                   action := {| path := join dir nm; isDirectory := false |} |}).
Proof.
  intros Hl. unfold walk_entry, readStat. rewrite Hl. simpl. split.
  - intros Hs. rewrite Hs. reflexivity.
  - intros k Hs Hk. rewrite Hs. destruct k; simpl; try reflexivity. contradiction.
Qed.

Lemma symlink_expanded_witness :
  walk_entry link2_fs "/r" [".git"] true "/r" "gone" = StatFailed /\
  walk_entry link2_fs "/r" [".git"] true "/r" "ln" =
    PushFile {| word := relative "/r" "/r/ln"; display := None; highlights := None;
                action := {| path := "/r/ln"; isDirectory := false |} |}.
Proof.
  split.
  - apply (proj1 (symlink_expanded link2_fs "/r" [".git"] "/r" "gone" eq_refl)).
    reflexivity.
  - apply (proj2 (symlink_expanded link2_fs "/r" [".git"] "/r" "ln" eq_refl) KFile).
    + reflexivity.
    + discriminate.
Defined.

(** ** [gatherBuffer] and [gatherMr] *)

Lemma buf_keep_true bt b :
  buf_keep bt b = true <-> name b <> "" /\ bt (bufnr b) <> Some "terminal".
Proof.
  unfold buf_keep. rewrite andb_true_iff, !negb_true_iff, !String.eqb_neq.
  destruct (bt (bufnr b)) as [s|]; split; intros [H1 H2]; split; auto; try congruence.
Qed.

Lemma buffer_loop_subseq d sp bufNr info bt : forall bufs seen,
  exists bs, subseq bs bufs /\ Forall (fun b => buf_keep bt b = true) bs /\
    fst (buffer_loop d sp bufNr info bt seen bufs) = map (buffer_item sp bufNr info) bs /\
    (d = false -> bs = filter (buf_keep bt) bufs).
Proof.
  induction bufs as [|b bufs IH]; intros seen; simpl.
  - exists []. repeat split; auto using subseq_nil.
  - unfold buf_keep at 2 4.
    destruct (String.eqb (name b) "") eqn:En; simpl.
    { destruct (IH seen) as [bs [H1 [H2 [H3 H4]]]]. exists bs. repeat split; auto.
      apply subseq_skip; auto. }
    destruct (String.eqb _ "terminal") eqn:Et; simpl.
    { destruct (IH seen) as [bs [H1 [H2 [H3 H4]]]]. exists bs. repeat split; auto.
      apply subseq_skip; auto. }
    destruct (d && mem (normalizePath (name b)) seen) eqn:Ed.
    { destruct (IH seen) as [bs [H1 [H2 [H3 H4]]]]. exists bs. repeat split; auto.
      - apply subseq_skip; auto.
      - intros ->. discriminate. }
    destruct (IH (if d then normalizePath (name b) :: seen else seen))
      as [bs [H1 [H2 [H3 H4]]]].
    destruct (buffer_loop _ _ _ _ _ _ bufs) as [items s]. simpl in *.
    exists (b :: bs). repeat split.
    + apply subseq_keep; auto.
    + constructor; auto. unfold buf_keep. rewrite En, Et. reflexivity.
    + rewrite H3. reflexivity.
    + intros Hd. rewrite H4; auto.
Qed.

Lemma sorted_buffers_listed orderby bufNr info b :
  In b (sorted_buffers orderby bufNr info) -> In b (buffers info) /\ listed b = true.
Proof.
  intros H. unfold sorted_buffers, sort_by in H.
  apply (Permutation_in _ (sort_by_perm _ _ [])) in H. simpl in H.
  apply filter_In in H. exact H.
Qed.

Lemma subseq_incl {A} (l1 l2 : list A) : subseq l1 l2 -> incl l1 l2.
Proof.
  induction 1; intros y Hy; simpl in *; auto. destruct Hy; auto.
Qed.

(** [gatherBuffer] emits, in the sorted order, one item for some of the
    listed buffers returned by [getbufinfo], leaving out every unnamed and
    every terminal buffer; each item opens the buffer's name as a file.
    With dedup off no named non-terminal listed buffer is left out. *)
Theorem gatherBuffer_items p bufNr info bt seen :
  exists bs,
    subseq bs (sorted_buffers (bufferOrderby p) bufNr info) /\
    Forall (fun b => In b (buffers info) /\ listed b = true /\ name b <> "" /\
                     bt (bufnr b) <> Some "terminal" /\
                     action (buffer_item (showSourcePrefix p) bufNr info b) =
                       {| path := name b; isDirectory := false |}) bs /\
    fst (gatherBuffer p bufNr info bt seen) = map (buffer_item (showSourcePrefix p) bufNr info) bs /\
    (dedup p = false ->
       bs = filter (buf_keep bt) (sorted_buffers (bufferOrderby p) bufNr info)).
Proof.
  unfold gatherBuffer.
  destruct (buffer_loop_subseq (dedup p) (showSourcePrefix p) bufNr info bt
              (sorted_buffers (bufferOrderby p) bufNr info) seen) as [bs [H1 [H2 [H3 H4]]]].
  exists bs. repeat split; auto.
  rewrite Forall_forall in *. intros b Hb.
  destruct (sorted_buffers_listed _ _ _ _ (subseq_incl _ _ H1 b Hb)) as [Hi Hl].
  destruct (proj1 (buf_keep_true bt b) (H2 b Hb)). repeat split; auto.
Qed.

(** When the vim-mr call fails, [gatherMr] returns no item, leaves the
    dedup set alone and logs exactly one message: the fixed "Failed to call
    vim-mr" message for a timeout or any other [DOMException], the
    [AssertError] of [ensure] for a reply that is not an array of strings,
    and the error itself for any other rejection. *)
Theorem gatherMr_failures p seen :
  gatherMr p seen MrTimedOut = ([], seen, [DiagMrUnavailable]) /\
  (forall n, gatherMr p seen (MrRejected (DOMExc n)) = ([], seen, [DiagMrUnavailable])) /\
  (forall e, (forall n, e <> DOMExc n) ->
     gatherMr p seen (MrRejected e) = ([], seen, [DiagMr e])) /\
  (forall v, (forall l, v <> JArr (map JStr l)) ->
     gatherMr p seen (MrResolved v) = ([], seen, [DiagMr (ErrorNamed "AssertError")])).
Proof.
  repeat split.
  - intros e He. unfold gatherMr, mr_call, mr_diag.
    destruct e; try reflexivity. exfalso. eapply He; eauto.
  - intros v Hv. unfold gatherMr, mr_call, ensure_strings.
    destruct v as [s|l|]; try reflexivity.
    destruct (all_strings l) eqn:E; [|reflexivity].
    apply all_strings_map in E. subst. exfalso. eapply Hv; eauto.
Qed.

Lemma all_strings_JStr l : all_strings (map JStr l) = Some l.
Proof. induction l as [|s l IH]; simpl; auto. rewrite IH. reflexivity. Qed.

Lemma mr_loop_subseq d sp kind : forall l seen,
  exists xs, subseq xs l /\
    fst (mr_loop d sp kind seen l) =
      map (fun x => makeItem x x kind sp (mem kind ["mrr"; "mrd"])) xs /\
    (d = false -> xs = l).
Proof.
  induction l as [|x l IH]; intros seen; simpl.
  - exists []. repeat split; auto using subseq_nil.
  - destruct (d && mem (normalizePath x) seen) eqn:Ed.
    + destruct (IH seen) as [xs [H1 [H2 H3]]]. exists xs. repeat split; auto.
      * apply subseq_skip; auto.
      * intros ->. discriminate.
    + destruct (IH (if d then normalizePath x :: seen else seen)) as [xs [H1 [H2 H3]]].
      destruct (mr_loop _ _ _ _ l) as [items s]. simpl in *.
      exists (x :: xs). repeat split.
      * apply subseq_keep; auto.
      * rewrite H2. reflexivity.
      * intros Hd. rewrite H3; auto.
Qed.

(** When vim-mr replies with a list of strings, [gatherMr] logs nothing and
    emits, in the reply's order, one item for some of the paths: word and
    path are the path exactly as vim-mr gave it, and the item is a
    directory exactly when [mrKind] is [mrr] or [mrd].  With dedup off,
    every path gets its item and the dedup set is left alone. *)
Theorem gatherMr_items p seen l :
  snd (gatherMr p seen (MrResolved (JArr (map JStr l)))) = [] /\
  exists xs, subseq xs l /\
    fst (fst (gatherMr p seen (MrResolved (JArr (map JStr l))))) =
      map (fun x => makeItem x x (mrKind p) (showSourcePrefix p)
                      (mem (mrKind p) ["mrr"; "mrd"])) xs /\
    (dedup p = false ->
       xs = l /\ snd (fst (gatherMr p seen (MrResolved (JArr (map JStr l))))) = seen).
Proof.
  unfold gatherMr, mr_call, ensure_strings. rewrite all_strings_JStr.
  destruct (mr_loop_subseq (dedup p) (showSourcePrefix p) (mrKind p) l seen)
    as [xs [H1 [H2 H3]]].
  pose proof (mr_loop_nodedup (showSourcePrefix p) (mrKind p) seen l) as Hn.
  destruct (mr_loop _ _ _ _ l) as [items s] eqn:E. simpl in *.
  split; [reflexivity|]. exists xs. split; [exact H1|]. split; [exact H2|].
  intros Hd. split; [auto|]. rewrite Hd in E. rewrite E in Hn. congruence.
Qed.

(** ** Delivered items *)

Lemma rec_filter_incl : forall chunk seen it,
  In it (fst (rec_filter seen chunk)) -> In it chunk.
Proof.
  induction chunk as [|x chunk IH]; intros seen it H; simpl in *; auto.
  destruct (String.eqb (path (action x)) "").
  - destruct (rec_filter seen chunk) as [r s] eqn:E. simpl in H.
    destruct H as [H|H]; auto. right. apply (IH seen). rewrite E. exact H.
  - destruct (mem (normalizePath (path (action x))) seen).
    + right. eauto.
    + destruct (rec_filter (normalizePath (path (action x)) :: seen) chunk) as [r s] eqn:E.
      simpl in H. destruct H as [H|H]; auto. right.
      apply (IH (normalizePath (path (action x)) :: seen)). rewrite E. exact H.
Qed.

Section Delivered.
Variables (p : Params) (P Q : Item -> Prop).
Hypothesis HPQ : forall it, P it -> Q (if showSourcePrefix p then rec_prefix it else it).

Lemma feed_all_items : forall chunks st,
  Forall (Forall P) chunks -> (forall it, In it (ws_all st) -> Q it) ->
  forall it, In it (ws_all (feed_all p st chunks)) -> Q it.
Proof.
  intros chunks; induction chunks as [|c cs IH]; intros st Hc Hst; simpl; auto.
  inversion Hc as [|? ? Hc1 Hc2]; subst. apply IH; auto.
  intros it Hit. destruct (feed_items p st c) as [f [s [Hf [_ Ha]]]]. rewrite Ha in Hit.
  apply in_app_or in Hit. destruct Hit as [Hit|Hit]; auto.
  assert (Hfc : forall x, In x f -> In x c).
  { destruct (dedup p).
    - intros x Hx. apply (rec_filter_incl c (ws_seen st)). rewrite Hf. exact Hx.
    - inversion Hf; subst; auto. }
  rewrite Forall_forall in Hc1.
  destruct (showSourcePrefix p) eqn:Es.
  - apply in_map_iff in Hit. destruct Hit as [x [<- Hx]].
    exact (HPQ x (Hc1 x (Hfc x Hx))).
  - exact (HPQ it (Hc1 it (Hfc it Hit))).
Qed.

Lemma walk_stage_items env seen :
  (forall dir nm it, walk_entry (env_fs env) (env_root env) (ignoredDirectories p)
                       (expandSymbolicLink p) dir nm = PushFile it -> P it) ->
  forall b it, In b (fst (fst (walk_stage p env seen))) -> In it b -> Q it.
Proof.
  intros Hent b it Hb Hit. unfold walk_stage, walkFiles in Hb.
  pose proof (inner_items (env_fs env) (env_signal env) (env_root env)
                (ignoredDirectories p) (chunkSize p) (expandSymbolicLink p) P Hent
                (env_fuel env) (env_root env) 0) as Hw.
  destruct (inner _ _ _ _ _ _ _ _ _) as [chunks w]. simpl in Hw.
  assert (Hall := feed_all_items chunks (mkWState seen [] [] (chunkSize p)) Hw
                    ltac:(intros x Hx; destruct Hx)).
  destruct w; simpl in Hb.
  - apply Hall. rewrite <- flush_concat. apply in_concat. eauto.
  - apply Hall. unfold ws_all. apply in_or_app. left. apply in_concat. eauto.
  - apply Hall. unfold ws_all. apply in_or_app. left. apply in_concat. eauto.
Qed.

End Delivered.

Lemma buf_stage_items p env B s1 :
  (if enableBuffer p then
     match env_bufinfo env with
     | ROk info => ROk (gatherBuffer p (env_bufNr env) info (env_buftype env) [])
     | RErr e => RErr e
     end
   else ROk ([], [])) = ROk (B, s1) ->
  forall it, In it B -> item_source p env OBuf it.
Proof.
  intros H it Hit. simpl.
  destruct (enableBuffer p) eqn:Eb; [|inversion H; subst; contradiction].
  destruct (env_bufinfo env) as [info|e] eqn:Ei; [|discriminate].
  inversion H as [HB]. split; auto. exists info.
  unfold gatherBuffer in HB.
  destruct (buffer_loop_subseq (dedup p) (showSourcePrefix p) (env_bufNr env) info
              (env_buftype env) (sorted_buffers (bufferOrderby p) (env_bufNr env) info) [])
    as [bs [H1 [H2 [H3 _]]]].
  rewrite HB in H3. simpl in H3. subst B.
  apply in_map_iff in Hit. destruct Hit as [b [<- Hb]].
  rewrite Forall_forall in H2.
  exists b. repeat split; auto. apply (subseq_incl _ _ H1 b Hb).
Qed.

Lemma mr_stage_items p env s1 it :
  In it (fst (fst (if enableMr p then gatherMr p s1 (env_mr env) else ([], s1, [])))) ->
  item_source p env OMr it.
Proof.
  intros Hit. simpl.
  destruct (enableMr p); [|contradiction]. split; auto.
  unfold gatherMr in Hit. destruct (mr_call (env_mr env)) as [l|e]; [|contradiction].
  destruct (mr_loop_subseq (dedup p) (showSourcePrefix p) (mrKind p) l s1)
    as [xs [H1 [H2 _]]].
  destruct (mr_loop _ _ _ s1 l) as [M s2]. simpl in *. subst M.
  apply in_map_iff in Hit. destruct Hit as [x [<- Hx]].
  exists l, x. repeat split; auto. apply (subseq_incl _ _ H1 x Hx).
Qed.

Lemma rec_stage_items p env s2 b it :
  In b (fst (fst (if enableFileRec p then walk_stage p env s2 else ([], [], false)))) ->
  In it b -> item_source p env ORec it.
Proof.
  intros Hb Hit. simpl.
  destruct (enableFileRec p); [|contradiction]. split; auto.
  apply (walk_stage_items p
           (fun it0 => exists dir nm, walk_entry (env_fs env) (env_root env)
                         (ignoredDirectories p) (expandSymbolicLink p) dir nm = PushFile it0)
           (fun it => exists it0 dir nm,
              walk_entry (env_fs env) (env_root env) (ignoredDirectories p)
                (expandSymbolicLink p) dir nm = PushFile it0 /\
              it = (if showSourcePrefix p then rec_prefix it0 else it0)))
    with (env := env) (seen := s2) (b := b); auto.
  - intros it0 [dir [nm Hw]]. exists it0, dir, nm. auto.
  - intros dir nm it0 Hw. eauto.
Qed.

Lemma gather_items p env o b it :
  In (o, b) (traced (gather p env)) -> In it b -> item_source p env o it.
Proof.
  intros Hin Hit. unfold gather in Hin.
  pose proof (buf_stage_items p env) as HB.
  destruct (if enableBuffer p then _ else ROk ([], [])) as [[B s1]|e];
    [|simpl in Hin; contradiction].
  specialize (HB B s1 eq_refl).
  unfold gather_rest in Hin.
  pose proof (mr_stage_items p env s1) as HM.
  destruct (if enableMr p then gatherMr p s1 (env_mr env) else ([], s1, []))
    as [[M s2] lg2].
  pose proof (rec_stage_items p env s2) as HR.
  destruct (if enableFileRec p then walk_stage p env s2 else ([], [], false))
    as [[W lg3] ex].
  simpl in Hin. cbn [fst] in HM, HR.
  apply in_app_or in Hin. destruct Hin as [Hin|Hin].
  { apply in_enqueue in Hin. destruct Hin as [-> ->]. auto. }
  apply in_app_or in Hin. destruct Hin as [Hin|Hin].
  { apply in_enqueue in Hin. destruct Hin as [-> ->]. auto. }
  apply in_map_iff in Hin. destruct Hin as [b' [Heq Hb']]. inversion Heq; subst.
  eauto.
Qed.

(** Every delivered item can be traced back to what produced it.  A
    buffer item comes from a listed, named, non-terminal buffer of the
    [getbufinfo] reply and opens that buffer's name as a file.  An MRU item
    comes from a path of the vim-mr reply; its word and path are that path,
    and it is a directory exactly when [mrKind] is [mrr] or [mrd].  A walker
    item is a non-directory entry (as [readStat] reports it) under the root,
    with its path relative to the root as word.  A disabled source delivers
    nothing. *)
Theorem delivered_provenance p env :
  Forall (fun ob => Forall (fun it =>
    match fst ob with
    | OBuf =>
        enableBuffer p = true /\
        exists info b, env_bufinfo env = ROk info /\ In b (buffers info) /\
          listed b = true /\ name b <> "" /\
          env_buftype env (bufnr b) <> Some "terminal" /\
          action it = {| path := name b; isDirectory := false |}
    | OMr =>
        enableMr p = true /\
        exists l, mr_call (env_mr env) = ROk l /\ In (path (action it)) l /\
          word it = path (action it) /\
          isDirectory (action it) = mem (mrKind p) ["mrr"; "mrd"]
    | ORec =>
        enableFileRec p = true /\
        word it = relative (env_root env) (path (action it)) /\
        isDirectory (action it) = false /\
        exists st, readStat (env_fs env) (path (action it)) (expandSymbolicLink p) = Some st /\
          fi_isDirectory st = false
    end) (snd ob)) (traced (gather p env)).
Proof.
  apply Forall_forall. intros [o b] Hin. apply Forall_forall. intros it Hit.
  pose proof (gather_items p env o b it Hin Hit) as H. simpl.
  destruct o; simpl in H.
  - destruct H as [He [info [b0 [Hi [Hb [Hk ->]]]]]].
    destruct (sorted_buffers_listed _ _ _ _ Hb).
    destruct (proj1 (buf_keep_true _ _) Hk).
    split; auto. exists info, b0. repeat split; auto.
  - destruct H as [He [l [x [Hl [Hx ->]]]]]. split; auto. exists l. repeat split; auto.
  - destruct H as [He [it0 [dir [nm [Hw ->]]]]].
    destruct (walk_entry_pushed _ _ _ _ _ _ _ Hw) as [W1 [_ [_ [W4 W5]]]].
    split; auto. destruct (showSourcePrefix p); simpl; auto.
Qed.

(** Every delivered item is decorated with the tag of the source that
    produced it ([buf], the [mrKind], [rec]): with [showSourcePrefix] on,
    its display is ["[tag] "] followed by its word and it has the single
    highlight [DduTriSource_tag] over that prefix; with it off, it has
    neither display nor highlight. *)
Theorem delivered_decoration p env :
  Forall (fun ob => Forall (fun it =>
    display it =
      (if showSourcePrefix p then Some (("[" ++ tag_of p (fst ob) ++ "] ") ++ word it)
       else None) /\
    highlights it =
      (if showSourcePrefix p then
         Some [mkHighlight ("ddu_tri_source_" ++ tag_of p (fst ob))
                 ("DduTriSource_" ++ tag_of p (fst ob)) 1
                 (String.length ("[" ++ tag_of p (fst ob) ++ "] "))]
       else None)) (snd ob)) (traced (gather p env)).
Proof.
  apply Forall_forall. intros [o b] Hin. apply Forall_forall. intros it Hit.
  pose proof (gather_items p env o b it Hin Hit) as H. simpl.
  destruct o; simpl in H.
  - destruct H as [_ [info [b0 [_ [_ [_ ->]]]]]].
    unfold buffer_item. destruct (showSourcePrefix p); split; reflexivity.
  - destruct H as [_ [l [x [_ [_ ->]]]]]. destruct (showSourcePrefix p); split; reflexivity.
  - destruct H as [_ [it0 [dir [nm [Hw ->]]]]].
    destruct (walk_entry_pushed _ _ _ _ _ _ _ Hw) as [_ [W2 [W3 _]]].
    destruct (showSourcePrefix p); simpl; auto.
Qed.

Lemma hl_defined_tag k :
  hl_defined ("DduTriSource_" ++ k) = mem k ["buf"; "mru"; "mrw"; "mrr"; "mrd"; "rec"].
Proof.
  unfold hl_defined, mem. simpl. rewrite !(String.eqb_sym k). reflexivity.
Qed.

(** The highlight group of every delivered item is one that [onInit]
    defines, except for MRU items when [mrKind] is none of [mru], [mrw],
    [mrr], [mrd] (nor [buf] or [rec]): their group is defined by no
    [onInit] command. *)
Theorem delivered_highlight_groups p env :
  Forall (fun ob => Forall (fun it =>
    match highlights it with
    | Some hs =>
        Forall (fun h => hl_defined (hl_group h) =
                  match fst ob with
                  | OMr => mem (mrKind p) ["buf"; "mru"; "mrw"; "mrr"; "mrd"; "rec"]
                  | _ => true
                  end) hs
    | None => True
    end) (snd ob)) (traced (gather p env)).
Proof.
  apply Forall_forall. intros [o b] Hin. apply Forall_forall. intros it Hit.
  pose proof (gather_items p env o b it Hin Hit) as H. simpl.
  destruct o; simpl in H.
  - destruct H as [_ [info [b0 [_ [_ [_ ->]]]]]].
    unfold buffer_item. destruct (showSourcePrefix p); simpl; auto.
  - destruct H as [_ [l [x [_ [_ ->]]]]]. destruct (showSourcePrefix p); simpl; auto.
    constructor; auto. simpl. apply hl_defined_tag.
  - destruct H as [_ [it0 [dir [nm [Hw ->]]]]].
    destruct (walk_entry_pushed _ _ _ _ _ _ _ Hw) as [_ [_ [W3 _]]].
    destruct (showSourcePrefix p); simpl; [auto|rewrite W3; auto].
Qed.

(** ** Chunk size and the walk *)

Lemma catch_pd_id r : (forall t, snd r <> WThrow PermissionDenied t) -> catch_pd r = r.
Proof.
  destruct r as [bs [t|e t|]]; intros H; simpl; auto.
  destruct e; auto. exfalso. apply (H t). reflexivity.
Qed.

Lemma inner_not_pd fs sg root ign cs ex fuel dir t t' :
  snd (inner fs sg root ign cs ex fuel dir t) <> WThrow PermissionDenied t'.
Proof.
  destruct fuel as [|f]; simpl; [discriminate|].
  destruct (readDir fs dir) as [es rderr].
  destruct (walk_loop _ _ _ _ _ _ _ _ _ _ _ _) as [bs [t0|e t0|]]; simpl; try discriminate.
  destruct e; discriminate.
Qed.

Section ChunkIndep.
Variables (fs : FS) (sg : signal) (root : string) (ign : list string) (ex : bool).
Hypothesis no_pd_realPath : forall q, realPath fs q <> RErr PermissionDenied.
Hypothesis no_pd_signal : forall k, sg <> Some (k, PermissionDenied).

Lemma walk_loop_not_pd cs rec dir rderr :
  rderr <> Some PermissionDenied ->
  (forall q t t', snd (rec q t) <> WThrow PermissionDenied t') ->
  forall es c t t',
  snd (walk_loop fs sg root ign cs ex rec dir rderr es c t) <> WThrow PermissionDenied t'.
Proof.
  intros Hrd Hrec es; induction es as [|nm es IH]; intros c t t'; simpl.
  - unfold aborted. destruct sg as [[k r]|] eqn:Esg; [destruct (Nat.leb k t)|].
    + simpl. intros E. inversion E; subst. apply (no_pd_signal k). reflexivity.
    + destruct rderr as [e|]; simpl; [|discriminate].
      intros E. inversion E; subst. auto.
    + destruct rderr as [e|]; simpl; [|discriminate].
      intros E. inversion E; subst. auto.
  - destruct (aborted sg t) as [r|] eqn:Ea.
    + simpl. intros E. inversion E; subst. unfold aborted in Ea.
      destruct sg as [[k r']|]; [|discriminate].
      destruct (Nat.leb k t); [|discriminate]. inversion Ea; subst.
      apply (no_pd_signal k). reflexivity.
    + destruct (walk_entry fs root ign ex dir nm) as [| it | | | q | e] eqn:Ew; auto.
      * destruct (_ <=? _)%Z; auto.
        specialize (IH [] (S t) t').
        destruct (walk_loop _ _ _ _ _ _ _ _ _ _ [] (S t)) as [bs w]; simpl in *. auto.
      * specialize (Hrec q (S t) t').
        destruct (rec q (S t)) as [bs w]; simpl in *.
        destruct w as [t0| |]; simpl; auto.
        specialize (IH c t0 t').
        destruct (walk_loop _ _ _ _ _ _ _ _ _ _ c t0) as [bs2 w2]; simpl in *. auto.
      * simpl. intros E. inversion E; subst.
        unfold walk_entry in Ew.
        destruct (readStat fs (join dir nm) ex) as [st|]; [|discriminate].
        destruct (negb (fi_isDirectory st)); [discriminate|].
        destruct (mem nm ign); [discriminate|].
        destruct (isSymlink st && fi_isDirectory st); [|discriminate].
        destruct (realPath fs (join dir nm)) as [rp|e'] eqn:Er;
          [destruct (includes (join dir nm) rp); discriminate|].
        inversion Ew; subst. apply (no_pd_realPath (join dir nm)). exact Er.
Qed.

Variables (cs1 cs2 : Z).

Lemma walk_loop_sim rec1 rec2 dir rderr :
  (forall q t, snd (rec1 q t) = snd (rec2 q t) /\
     (forall t', snd (rec1 q t) = WDone t' ->
        Permutation (concat (fst (rec1 q t))) (concat (fst (rec2 q t))))) ->
  forall es c1 c2 t,
  snd (walk_loop fs sg root ign cs1 ex rec1 dir rderr es c1 t) =
  snd (walk_loop fs sg root ign cs2 ex rec2 dir rderr es c2 t) /\
  (forall t', snd (walk_loop fs sg root ign cs1 ex rec1 dir rderr es c1 t) = WDone t' ->
   exists L,
     Permutation (concat (fst (walk_loop fs sg root ign cs1 ex rec1 dir rderr es c1 t)))
       (c1 ++ L) /\
     Permutation (concat (fst (walk_loop fs sg root ign cs2 ex rec2 dir rderr es c2 t)))
       (c2 ++ L)).
Proof.
  intros Hrec es; induction es as [|nm es IH]; intros c1 c2 t; simpl.
  - destruct (aborted sg t); simpl; [split; [auto|discriminate]|].
    destruct rderr; simpl; [split; [auto|discriminate]|].
    split; auto. intros t' _. exists []. rewrite !app_nil_r.
    destruct c1, c2; simpl; rewrite ?app_nil_r; split; auto.
  - destruct (aborted sg t); simpl; [split; [auto|discriminate]|].
    destruct (walk_entry fs root ign ex dir nm) as [| it | | | q | e]; auto.
    + (* both sides push [it]; each may yield its chunk *)
      destruct (Z.leb_spec cs1 (Z.of_nat (length (c1 ++ [it])))) as [H1|H1];
      destruct (Z.leb_spec cs2 (Z.of_nat (length (c2 ++ [it])))) as [H2|H2].
      * destruct (IH [] [] (S t)) as [E HL].
        destruct (walk_loop fs sg root ign cs1 ex rec1 dir rderr es [] (S t)) as [bs1 w1];
        destruct (walk_loop fs sg root ign cs2 ex rec2 dir rderr es [] (S t)) as [bs2 w2]; simpl in *.
        split; auto. intros t' Ht. destruct (HL t' Ht) as [L [P1 P2]].
        exists (it :: L). rewrite <- !app_assoc. simpl. split; apply Permutation_app_head; auto.
      * destruct (IH [] (c2 ++ [it])%list (S t)) as [E HL].
        destruct (walk_loop fs sg root ign cs1 ex rec1 dir rderr es [] (S t)) as [bs1 w1]; simpl in *.
        split; auto. intros t' Ht. destruct (HL t' Ht) as [L [P1 P2]].
        exists (it :: L). rewrite <- !app_assoc in *. simpl in *. split; auto.
        apply Permutation_app_head; auto.
      * destruct (IH (c1 ++ [it])%list [] (S t)) as [E HL].
        destruct (walk_loop fs sg root ign cs2 ex rec2 dir rderr es [] (S t)) as [bs2 w2]; simpl in *.
        split; auto. intros t' Ht. destruct (HL t' Ht) as [L [P1 P2]].
        exists (it :: L). rewrite <- !app_assoc in *. simpl in *. split; auto.
        apply Permutation_app_head; auto.
      * destruct (IH (c1 ++ [it])%list (c2 ++ [it])%list (S t)) as [E HL].
        split; auto. intros t' Ht. destruct (HL t' Ht) as [L [P1 P2]].
        exists (it :: L). rewrite <- !app_assoc in *. simpl in *. split; auto.
    + destruct (Hrec q (S t)) as [Eq HP].
      destruct (rec1 q (S t)) as [bs1 w1]; destruct (rec2 q (S t)) as [bs2 w2].
      simpl in Eq, HP. subst w2.
      destruct w1 as [t0| |]; simpl; [|split; [auto|discriminate]..].
      specialize (HP t0 eq_refl).
      destruct (IH c1 c2 t0) as [E HL].
      destruct (walk_loop fs sg root ign cs1 ex rec1 dir rderr es c1 t0) as [bs1' w1'];
      destruct (walk_loop fs sg root ign cs2 ex rec2 dir rderr es c2 t0) as [bs2' w2']; simpl in *.
      split; auto. intros t' Ht. destruct (HL t' Ht) as [L [P1 P2]].
      exists (concat bs1 ++ L)%list. rewrite !concat_app. split.
      * eapply perm_trans; [apply Permutation_app_head, P1|].
        rewrite !app_assoc. apply Permutation_app_tail, Permutation_app_comm.
      * eapply perm_trans; [apply Permutation_app_head, P2|].
        rewrite !app_assoc. apply Permutation_app_tail.
        eapply perm_trans; [apply Permutation_app_comm|].
        apply Permutation_app_head. symmetry. exact HP.
    + simpl. split; [auto|discriminate].
Qed.

Hypothesis no_pd_readDir : forall d, snd (readDir fs d) <> Some PermissionDenied.

Lemma inner_sim : forall fuel dir t,
  snd (inner fs sg root ign cs1 ex fuel dir t) = snd (inner fs sg root ign cs2 ex fuel dir t) /\
  (forall t', snd (inner fs sg root ign cs1 ex fuel dir t) = WDone t' ->
     Permutation (concat (fst (inner fs sg root ign cs1 ex fuel dir t)))
                 (concat (fst (inner fs sg root ign cs2 ex fuel dir t)))).
Proof.
  intros fuel; induction fuel as [|f IH]; intros dir t; simpl; [split; [auto|discriminate]|].
  pose proof (no_pd_readDir dir) as Hrd.
  destruct (readDir fs dir) as [es rderr]. simpl in Hrd.
  destruct (walk_loop_sim (inner fs sg root ign cs1 ex f) (inner fs sg root ign cs2 ex f)
              dir rderr IH es [] [] t) as [E HL].
  rewrite !(catch_pd_id (walk_loop _ _ _ _ _ _ _ _ _ _ _ _)).
  - split; auto. intros t' Ht. destruct (HL t' Ht) as [L [P1 P2]].
    simpl in P1, P2. eapply perm_trans; [exact P1|]. symmetry. exact P2.
  - intros t'. apply walk_loop_not_pd; auto. intros; apply inner_not_pd.
  - intros t'. apply walk_loop_not_pd; auto. intros; apply inner_not_pd.
Qed.

End ChunkIndep.

(** Where no [PermissionDenied] can arise (from reading a directory, from
    [Deno.realPath] or as the abort reason), [chunkSize] only decides how
    the walker's items are cut into batches: the walk ends the same way for
    any two chunk sizes, and when it returns normally both yield the same
    items, possibly in another order (a directory's unfilled chunk is held
    back while its subdirectories are walked). *)
Theorem walkFiles_chunk_independent fs sg root ign ex fuel cs1 cs2 :
  (forall d, snd (readDir fs d) <> Some PermissionDenied) ->
  (forall q, realPath fs q <> RErr PermissionDenied) ->
  (forall k, sg <> Some (k, PermissionDenied)) ->
  snd (walkFiles fs sg root ign cs1 ex fuel) = snd (walkFiles fs sg root ign cs2 ex fuel) /\
  (forall t, snd (walkFiles fs sg root ign cs1 ex fuel) = WDone t ->
     Permutation (concat (fst (walkFiles fs sg root ign cs1 ex fuel)))
                 (concat (fst (walkFiles fs sg root ign cs2 ex fuel)))).
Proof.
  intros H1 H2 H3. unfold walkFiles. apply inner_sim; auto.
Qed.

Lemma walkFiles_chunk_independent_witness :
  map (map (fun it => path (action it)))
    (fst (walkFiles (tree_fs None None) None "/r" [".git"] 1 false 3)) =
    [["/r/a"]; ["/r/d/b"]] /\
  map (map (fun it => path (action it)))
    (fst (walkFiles (tree_fs None None) None "/r" [".git"] 10 false 3)) =
    [["/r/d/b"]; ["/r/a"]] /\
  snd (walkFiles (tree_fs None None) None "/r" [".git"] 1 false 3) =
    snd (walkFiles (tree_fs None None) None "/r" [".git"] 10 false 3) /\
  Permutation (concat (fst (walkFiles (tree_fs None None) None "/r" [".git"] 1 false 3)))
              (concat (fst (walkFiles (tree_fs None None) None "/r" [".git"] 10 false 3))).
Proof.
  assert (H1 : forall d, snd (readDir (tree_fs None None) d) <> Some PermissionDenied).
  { intros d. simpl. destruct (String.eqb d "/r"); [discriminate|].
    destruct (String.eqb d "/r/d"); discriminate. }
  assert (H2 : forall q, realPath (tree_fs None None) q <> RErr PermissionDenied)
    by (intros q; discriminate).
  assert (H3 : forall k, (None : signal) <> Some (k, PermissionDenied))
    by (intros k; discriminate).
  destruct (walkFiles_chunk_independent (tree_fs None None) None "/r" [".git"] false 3 1 10
              H1 H2 H3) as [E P].
  split; [vm_compute; reflexivity|]. split; [vm_compute; reflexivity|].
  split; [exact E|]. apply (P 5). vm_compute. reflexivity.
Defined.

(** ** Ignored directories *)

Lemma slash_last (a1 a2 b1 b2 : list ascii) :
  ~ In "/"%char a1 -> ~ In "/"%char a2 ->
  (a1 ++ "/"%char :: b1 = a2 ++ "/"%char :: b2)%list -> a1 = a2.
Proof.
  revert a2; induction a1 as [|c a1 IH]; intros [|c2 a2] H1 H2 E; simpl in *; auto.
  - inversion E; subst. exfalso. apply H2. left. reflexivity.
  - inversion E; subst. exfalso. apply H1. left. reflexivity.
  - inversion E; subst. f_equal. apply IH; auto.
Qed.

Lemma string_of_list_of_string s : string_of_list (list_of_string s) = s.
Proof. induction s as [|c s IH]; simpl; congruence. Qed.

Lemma join_split dir nm :
  exists X, list_of_string (join dir nm) = (X ++ "/"%char :: list_of_string nm)%list.
Proof.
  unfold join. destruct (ends_with_slash dir) eqn:E.
  - rewrite ends_with_slash_rev in E.
    destruct (rev (list_of_string dir)) as [|c r] eqn:R; [discriminate|].
    apply Ascii.eqb_eq in E. subst c. exists (rev r).
    rewrite list_of_string_app.
    replace (list_of_string dir) with (rev r ++ ["/"%char])%list.
    + rewrite <- app_assoc. reflexivity.
    + rewrite <- (rev_involutive (list_of_string dir)), R. reflexivity.
  - exists (list_of_string dir). rewrite !list_of_string_app. reflexivity.
Qed.

(** An entry name without a separator is the last component of the joined
    path. *)
Lemma join_name_inj dir1 nm1 dir2 nm2 :
  ~ In "/"%char (list_of_string nm1) -> ~ In "/"%char (list_of_string nm2) ->
  join dir1 nm1 = join dir2 nm2 -> nm1 = nm2.
Proof.
  intros H1 H2 E.
  destruct (join_split dir1 nm1) as [X1 E1]. destruct (join_split dir2 nm2) as [X2 E2].
  rewrite E in E1. rewrite E1 in E2.
  apply (f_equal (@rev ascii)) in E2. rewrite !rev_app_distr in E2. simpl in E2.
  rewrite <- !app_assoc in E2. simpl in E2.
  apply slash_last in E2; [|rewrite <- in_rev; auto|rewrite <- in_rev; auto].
  apply (f_equal (@rev ascii)) in E2. rewrite !rev_involutive in E2.
  rewrite <- (string_of_list_of_string nm1), <- (string_of_list_of_string nm2), E2.
  reflexivity.
Qed.

Lemma walk_entry_recurse fs root ign ex dir nm q :
  walk_entry fs root ign ex dir nm = Recurse q -> q = join dir nm /\ mem nm ign = false.
Proof.
  unfold walk_entry.
  destruct (readStat fs (join dir nm) ex) as [st|]; [|discriminate].
  destruct (negb (fi_isDirectory st)); [discriminate|].
  destruct (mem nm ign); [discriminate|].
  destruct (isSymlink st && fi_isDirectory st).
  - destruct (realPath fs (join dir nm)) as [rp|e]; [|discriminate].
    destruct (includes (join dir nm) rp); [discriminate|].
    intros H; inversion H; auto.
  - intros H; inversion H; auto.
Qed.

Lemma walk_loop_ext fs1 fs2 sg root ign cs ex rec1 rec2 dir rderr :
  (forall nm, walk_entry fs1 root ign ex dir nm = walk_entry fs2 root ign ex dir nm) ->
  forall es,
  (forall nm q t, In nm es -> walk_entry fs2 root ign ex dir nm = Recurse q ->
     rec1 q t = rec2 q t) ->
  forall c t,
  walk_loop fs1 sg root ign cs ex rec1 dir rderr es c t =
  walk_loop fs2 sg root ign cs ex rec2 dir rderr es c t.
Proof.
  intros Hw es; induction es as [|nm es IH]; intros Hr c t; simpl; auto.
  assert (Hr' : forall nm' q t', In nm' es -> walk_entry fs2 root ign ex dir nm' = Recurse q ->
                  rec1 q t' = rec2 q t') by (intros; apply (Hr nm'); simpl; auto).
  rewrite Hw. destruct (aborted sg t); auto.
  destruct (walk_entry fs2 root ign ex dir nm) eqn:E;
    try (repeat rewrite (IH Hr'); reflexivity).
  rewrite (Hr nm p (S t) (or_introl eq_refl) E).
  destruct (rec2 p (S t)) as [bs [t0| |]]; auto. rewrite (IH Hr'). reflexivity.
Qed.

(** When entry names carry no separator, the walker never lists a
    directory it can only reach through an ignored name: whatever
    [readDir] would return for it, the walk is the same. *)
Theorem ignored_dirs_unread fs sg root ign cs ex fuel dir nm v :
  mem nm ign = true -> ~ In "/"%char (list_of_string nm) -> join dir nm <> root ->
  (forall x, Forall (fun n => ~ In "/"%char (list_of_string n)) (fst (readDir fs x))) ->
  walkFiles (with_readDir fs (join dir nm) v) sg root ign cs ex fuel =
  walkFiles fs sg root ign cs ex fuel.
Proof.
  intros Hm Hs Hroot Hl. unfold walkFiles.
  assert (H : forall fuel dir' t, dir' <> join dir nm ->
    inner (with_readDir fs (join dir nm) v) sg root ign cs ex fuel dir' t =
    inner fs sg root ign cs ex fuel dir' t).
  { intros fuel'; induction fuel' as [|f IH]; intros dir' t Hne; simpl; auto.
    destruct (String.eqb_spec dir' (join dir nm)) as [E|_]; [contradiction|].
    pose proof (Hl dir') as Hs'.
    destruct (readDir fs dir') as [es rderr]. simpl in Hs'.
    f_equal. apply walk_loop_ext; [reflexivity|].
    intros nm' q t' Hin E. apply walk_entry_recurse in E. destruct E as [-> Hm'].
    apply IH. intros Heq.
    rewrite Forall_forall in Hs'.
    rewrite (join_name_inj _ _ _ _ (Hs' nm' Hin) Hs Heq) in Hm'. congruence. }
  apply H. auto.
Qed.

Lemma ignored_dirs_unread_witness :
  walkFiles (with_readDir (tree_fs None None) (join "/r" "d") (["x"; "y"], None))
    None "/r" ["d"] 10 false 3 =
  walkFiles (tree_fs None None) None "/r" ["d"] 10 false 3.
Proof.
  apply ignored_dirs_unread.
  - reflexivity.
  - simpl. intros [H|H]; [discriminate|contradiction].
  - vm_compute. discriminate.
  - intros x. simpl. destruct (String.eqb x "/r"); [|destruct (String.eqb x "/r/d")];
      repeat constructor; simpl; intros [H|H]; try discriminate; contradiction.
Defined.

(** ** The buffer line *)

Lemma digits_small f n acc : (0 <= n < 10)%Z ->
  digits (S f) n acc = String (ascii_of_nat (48 + Z.to_nat n)) acc.
Proof.
  intros H. simpl. rewrite Z.mod_small by lia.
  destruct (Z.ltb_spec n 10); [reflexivity|lia].
Qed.

Lemma size_nat_pos p : exists f, Pos.size_nat p = S f.
Proof. destruct p; simpl; eauto. Qed.

Lemma padStart2_small n : (0 <= n < 100)%Z ->
  exists a c, padStart2 (string_of_Z n) = String a (String c EmptyString).
Proof.
  intros H. unfold string_of_Z. destruct (Z.ltb_spec n 0); [lia|].
  destruct (Z.ltb_spec n 10).
  - rewrite digits_small by lia. unfold padStart2. simpl. eauto.
  - destruct (size_nat_pos (Z.to_pos n)) as [f Ef]. rewrite Ef.
    destruct f as [|f].
    + exfalso.
      assert (Hn : Z.to_pos n = 1%positive).
      { destruct (Z.to_pos n) as [q|q|]; auto; simpl in Ef;
          destruct (size_nat_pos q) as [k Hk]; congruence. }
      assert (n = 1)%Z by (rewrite <- (Z2Pos.id n) by lia; rewrite Hn; reflexivity).
      lia.
    + assert (Hd : (n / 10 < 10)%Z) by (apply Z.div_lt_upper_bound; lia).
      simpl. destruct (Z.ltb_spec n 10); [lia|].
      destruct (Z.ltb_spec (n / 10) 10); [|lia].
      unfold padStart2. simpl. eauto.
Qed.

(** For a buffer number from 0 to 99, the word of a buffer item has the
    shown name after a prefix of exactly 8 characters: in it come the number padded to two
    columns, the mark column [%] (current) and [#] (alternate) padded to
    two, and [+] when the buffer is modified, separated by spaces. *)
Theorem buffer_word_layout sp bufNr info b :
  (0 <= bufnr b < 100)%Z ->
  exists pre,
    word (buffer_item sp bufNr info b) =
      (pre ++ (if starts_with ".." (relative (currentDir info) (name b)) then name b
               else relative (currentDir info) (name b)))%string /\
    String.length pre = 8 /\
    String.get 3 pre =
      Some (if (bufNr =? bufnr b)%Z && (alternateBufNr info =? bufnr b)%Z
            then "%"%char else " "%char) /\
    String.get 4 pre =
      Some (if (alternateBufNr info =? bufnr b)%Z then "#"%char
            else if (bufNr =? bufnr b)%Z then "%"%char else " "%char) /\
    String.get 6 pre = Some (if changed b then "+"%char else " "%char).
Proof.
  intros H. destruct (padStart2_small _ H) as [a [c E]].
  unfold buffer_item. cbv zeta. rewrite E.
  set (dn := if starts_with ".." (relative (currentDir info) (name b)) then name b
             else relative (currentDir info) (name b)).
  exists (String a (String c EmptyString) ++ " " ++
          padStart2 ((if (bufNr =? bufnr b)%Z then "%" else "") ++
                     (if (alternateBufNr info =? bufnr b)%Z then "#" else "")) ++
          " " ++ (if changed b then "+" else " ") ++ " ")%string.
  destruct (bufNr =? bufnr b)%Z, (alternateBufNr info =? bufnr b)%Z, (changed b);
    simpl; repeat split; reflexivity.
Qed.

Lemma buffer_word_layout_witness :
  (0 <= bufnr (mkBufInfo 7 true 10 true "/x/a.txt") < 100)%Z /\
  word (buffer_item true 7 (mkGetBufInfo "/x" 7 []) (mkBufInfo 7 true 10 true "/x/a.txt")) =
    " 7 %# + a.txt" /\
  exists pre,
    word (buffer_item true 7 (mkGetBufInfo "/x" 7 []) (mkBufInfo 7 true 10 true "/x/a.txt")) =
      (pre ++ "a.txt")%string /\ String.length pre = 8.
Proof.
  split; [simpl; lia|]. split; [vm_compute; reflexivity|].
  destruct (buffer_word_layout true 7 (mkGetBufInfo "/x" 7 []) (mkBufInfo 7 true 10 true "/x/a.txt")
              ltac:(simpl; lia)) as [pre [E [L _]]].
  exists pre. split; [|exact L].
  rewrite E. f_equal.
Defined.
